(** * ReboundOp.perform: the trajectory evaluator of exoplanet

    A shallow embedding of [exoplanet/theano_ops/rebound/rebound.py].
    [ReboundOp.perform] marshals three numpy arrays into a REBOUND
    simulation, advances it to every requested time and copies the particle
    states into a freshly allocated result array.

    The integrator is a third-party library and the scalars are numpy
    floats: both are interfaces here ([Scalar], [Rebound]), and [perform]
    is written once, over any implementation of them. *)

From Stdlib Require Import ZArith Ascii String List Lia PrimFloat.
From stdpp Require Import base option list.

(** ** Python exceptions *)

Inductive exn : Type :=
| IndexError
| AttributeError (name : string)
| SimulationError (code : nat).

Inductive result (A : Type) : Type :=
| Ok (a : A)
| Raise (e : exn).
Arguments Ok {A} a.
Arguments Raise {A} e.

#[global] Instance result_ret : MRet result := fun _ a => Ok a.
#[global] Instance result_bind : MBind result := fun _ _ f c =>
  match c with Ok a => f a | Raise e => Raise e end.
#[global] Instance result_fmap : FMap result := fun _ _ f c =>
  match c with Ok a => Ok (f a) | Raise e => Raise e end.

Definition is_ok {A} (c : result A) : Prop := ∃ a, c = Ok a.

(** A [for] statement over a Python iterable whose body may raise. *)
Fixpoint for_each {A St : Type} (xs : list A) (body : St → A → result St)
    (st : St) : result St :=
  match xs with
  | [] => Ok st
  | x :: xs' => st' ← body st x; for_each xs' body st'
  end.

(** [range(a, b)] and [enumerate(l)]. *)
Definition range (a b : nat) : list nat := seq a (b - a).
Definition enumerate {A : Type} (l : list A) : list (nat * A) :=
  zip (seq 0 (length l)) l.

(** ["...".split()]: the words of a string, separated by spaces. *)
Fixpoint split_words (cur : string) (s : string) : list string :=
  match s with
  | EmptyString => if String.eqb cur EmptyString then [] else [cur]
  | String c s' =>
      if Ascii.eqb c " "%char
      then (if String.eqb cur EmptyString then [] else [cur]) ++ split_words EmptyString s'
      else split_words (cur ++ String c EmptyString)%string s'
  end.
Definition split (s : string) : list string := split_words EmptyString s.

(** ** Scalars and arrays *)

(** The float operations [perform] applies ([1.], [**2], [/], [-]), and
    the ones the sample integrators compute with. *)
Class Scalar : Type := {
  F : Type;
  fzero : F;
  fone : F;
  fadd : F → F → F;
  fsub : F → F → F;
  fmul : F → F → F;
  fdiv : F → F → F;
  fsqr : F → F;
}.

Section Arrays.
Context {Sc : Scalar}.

(** A two-dimensional [ndarray]: its shape and its rows. *)
Record ndarray2 : Type := {
  shape2 : nat * nat;
  rows2 : list (list F);
}.

(** A three-dimensional [ndarray]. *)
Record ndarray3 : Type := {
  shape3 : nat * nat * nat;
  cells3 : list (list (list F));
}.

Definition wf2 (a : ndarray2) : Prop :=
  length (rows2 a) = fst (shape2 a) ∧
  Forall (λ r, length r = snd (shape2 a)) (rows2 a).

(** [a[i]] on a one-dimensional array. *)
Definition getitem1 (a : list F) (i : nat) : result F :=
  match a !! i with Some v => Ok v | None => Raise IndexError end.

(** [a[i, k]]. *)
Definition getitem2 (a : ndarray2) (i k : nat) : result F :=
  match (row ← rows2 a !! i; (row : list F) !! k) with
  | Some v => Ok v
  | None => Raise IndexError
  end.

(** [np.empty(shape)]: the cells hold whatever the allocated memory
    held, [junk]. *)
Definition np_empty (junk : nat → nat → nat → F) (d0 d1 d2 : nat) : ndarray3 :=
  {| shape3 := (d0, d1, d2);
     cells3 := (λ i, (λ j, junk i j <$> seq 0 d2) <$> seq 0 d1) <$> seq 0 d0 |}.

(** [a[i, j, k] = v]. *)
Definition setitem3 (a : ndarray3) (i j k : nat) (v : F) : result ndarray3 :=
  let '(d0, d1, d2) := shape3 a in
  if ((i <? d0) && (j <? d1) && (k <? d2))%nat
  then Ok {| shape3 := shape3 a;
             cells3 := alter (alter (<[k := v]>) j) i (cells3 a) |}
  else Raise IndexError.

(** Reading [a[i, j, k]] back (used by the statements only). *)
Definition getitem3 (a : ndarray3) (i j k : nat) : option F :=
  plane ← cells3 a !! i; row ← (plane : list (list F)) !! j; (row : list F) !! k.

(** ** REBOUND's object model *)

Record Particle : Type := {
  p_m : F;
  p_x : F; p_y : F; p_z : F;
  p_vx : F; p_vy : F; p_vz : F;
}.

(** [getattr(part, coord)]. *)
Definition getattr (part : Particle) (coord : string) : result F :=
  if String.eqb coord "m"%string then Ok (p_m part)
  else if String.eqb coord "x"%string then Ok (p_x part)
  else if String.eqb coord "y"%string then Ok (p_y part)
  else if String.eqb coord "z"%string then Ok (p_z part)
  else if String.eqb coord "vx"%string then Ok (p_vx part)
  else if String.eqb coord "vy"%string then Ok (p_vy part)
  else if String.eqb coord "vz"%string then Ok (p_vz part)
  else Raise (AttributeError coord).

(** The state vector of a particle in the order of the result array. *)
Definition state_of (part : Particle) : list F :=
  [p_x part; p_y part; p_z part; p_vx part; p_vy part; p_vz part].
End Arrays.

(** What [perform] uses of the [rebound] module. *)
Class Rebound (Sc : Scalar) : Type := {
  Simulation : Type;
  new_simulation : result Simulation;               (* rebound.Simulation() *)
  set_G : Simulation → F → Simulation;              (* sim.G = g *)
  add : Simulation → Particle → result Simulation;  (* sim.add(m=…, x=…, …) *)
  integrate : Simulation → F → result Simulation;   (* sim.integrate(…) *)
  sim_t : Simulation → F;                           (* sim.t *)
  particles : Simulation → list Particle;           (* sim.particles *)
}.

(** ** ReboundOp.perform *)

Section Perform.
Context {Sc : Scalar} {R : Rebound Sc}.

(** The keyword arguments of [sim.add] for row [i] of [coords]. *)
Definition particle_args (coords : ndarray2) (i : nat) (mass : F) : result Particle :=
  x ← getitem2 coords i 0;
  y ← getitem2 coords i 1;
  z ← getitem2 coords i 2;
  vx ← getitem2 coords i 3;
  vy ← getitem2 coords i 4;
  vz ← getitem2 coords i 5;
  Ok {| p_m := mass; p_x := x; p_y := y; p_z := z;
        p_vx := vx; p_vy := vy; p_vz := vz |}.

(** Body of [for i in range(1, num)]. *)
Definition add_secondary (masses : list F) (coords : ndarray2)
    (sim : Simulation) (i : nat) : result Simulation :=
  mi ← getitem1 masses i;
  m0 ← getitem1 masses 0;
  p ← particle_args coords i (fdiv mi m0);
  add sim p.

(** Lines 40-48: the simulation as populated from the inputs. *)
Definition setup (masses : list F) (coords : ndarray2) : result Simulation :=
  let num := length masses in
  sim ← new_simulation;
  m0 ← getitem1 masses 0;
  let sim := set_G sim (fsqr m0) in
  p0 ← particle_args coords 0 fone;
  sim ← add sim p0;
  for_each (range 1 num) (add_secondary masses coords) sim.

(** Body of [for k, coord in enumerate("x y z vx vy vz".split())]. *)
Definition write_coord (i j : nat) (part : Particle)
    (results : ndarray3) (kc : nat * string) : result ndarray3 :=
  v ← getattr part kc.2;
  setitem3 results i j kc.1 v.

(** Body of [for j, part in enumerate(sim.particles)]. *)
Definition write_particle (i : nat)
    (results : ndarray3) (jp : nat * Particle) : result ndarray3 :=
  for_each (enumerate (split "x y z vx vy vz"%string)) (write_coord i jp.1 jp.2) results.

(** Body of [for i, t in enumerate(times)]. *)
Definition step (st : Simulation * ndarray3) (it : nat * F)
    : result (Simulation * ndarray3) :=
  sim ← integrate st.1 (fsub it.2 (sim_t st.1));
  results ← for_each (enumerate (particles sim)) (write_particle it.1) st.2;
  Ok (sim, results).

(** Lines 35-54: the simulation and the result array when the loops end. *)
Definition run (junk : nat → nat → nat → F)
    (masses : list F) (coords : ndarray2) (times : list F)
    : result (Simulation * ndarray3) :=
  let results := np_empty junk (length times) (shape2 coords).1 (shape2 coords).2 in
  sim ← setup masses coords;
  for_each (enumerate times) step (sim, results).

(** The array [perform] stores in [outputs[0][0]]. *)
Definition perform_results (junk : nat → nat → nat → F)
    (masses : list F) (coords : ndarray2) (times : list F) : result ndarray3 :=
  snd <$> run junk masses coords times.

(** The objects [perform] is handed: the three input arrays and the
    output cell [outputs[0][0]]. *)
Record Storage : Type := {
  in_masses : list F;
  in_coords : ndarray2;
  in_times : list F;
  out_cell : option ndarray3;
}.

(** [perform(node, inputs, outputs)]: the storage afterwards, and
    whether an exception escaped. *)
Definition perform (junk : nat → nat → nat → F) (st : Storage)
    : Storage * result () :=
  match perform_results junk (in_masses st) (in_coords st) (in_times st) with
  | Ok results =>
      ({| in_masses := in_masses st; in_coords := in_coords st;
          in_times := in_times st; out_cell := Some results |}, Ok ())
  | Raise e => (st, Raise e)
  end.
End Perform.

(** ** The calls [perform] makes

    [Logged R] is the library [R] with every mutating call recorded, in
    order, next to the simulation it returns. *)

Inductive call {Sc : Scalar} : Type :=
| CallNew
| CallSetG (g : F)
| CallAdd (p : Particle)
| CallIntegrate (dt : F).

Definition Logged {Sc : Scalar} (R : Rebound Sc) : Rebound Sc := {|
  Simulation := @Simulation Sc R * list call;
  new_simulation := (λ s, (s, [CallNew])) <$> new_simulation;
  set_G sl g := (set_G sl.1 g, sl.2 ++ [CallSetG g]);
  add sl p := (λ s, (s, sl.2 ++ [CallAdd p])) <$> add sl.1 p;
  integrate sl dt := (λ s, (s, sl.2 ++ [CallIntegrate dt])) <$> integrate sl.1 dt;
  sim_t sl := sim_t sl.1;
  particles sl := particles sl.1;
|}.

(** ** The simulation along the time loop, and the array as a function *)

Section View.
Context {Sc : Scalar} {R : Rebound Sc}.

(** Line 51, [sim.integrate(t - sim.t)]. *)
Definition advance (sim : Simulation) (t : F) : result Simulation :=
  integrate sim (fsub t (sim_t sim)).

(** The simulations the particle states are read from, one per
    requested time. *)
Fixpoint trajectory (sim : Simulation) (times : list F) : result (list Simulation) :=
  match times with
  | [] => Ok []
  | t :: ts => s ← advance sim t; (s ::.) <$> trajectory s ts
  end.

(** Cells as a function of their index: [np_empty f d0 d1 d2] is the
    array of shape [(d0, d1, d2)] holding [f i j k] at [i, j, k]. *)
Definition put_cell (f : nat → nat → nat → F) (i j k : nat) (v : F)
    : nat → nat → nat → F :=
  λ i' j' k', if ((i' =? i) && (j' =? j) && (k' =? k))%nat then v else f i' j' k'.

Definition put_state (f : nat → nat → nat → F) (i j : nat) (p : Particle)
    : nat → nat → nat → F :=
  λ i' j' k', if ((i' =? i) && (j' =? j))%nat
              then default (f i' j' k') (state_of p !! k') else f i' j' k'.

Definition put_states (f : nat → nat → nat → F) (i : nat) (ps : list Particle)
    : nat → nat → nat → F :=
  λ i' j' k', if (i' =? i)%nat
              then match ps !! j' with
                   | Some p => default (f i' j' k') (state_of p !! k')
                   | None => f i' j' k'
                   end
              else f i' j' k'.

(** Whether the states of [ps] fit plane [i] of an array of shape
    [(d0, d1, d2)]. *)
Definition fits (d0 d1 d2 i : nat) (ps : list Particle) : bool :=
  match ps with
  | [] => true
  | _ => ((i <? d0) && (length ps <=? d1) && (6 <=? d2))%nat
  end.

(** [step] on cells-as-functions. *)
Definition step_fn (d0 d1 d2 : nat) (st : Simulation * (nat → nat → nat → F))
    (it : nat * F) : result (Simulation * (nat → nat → nat → F)) :=
  sim ← advance st.1 it.2;
  if fits d0 d1 d2 it.1 (particles sim)
  then Ok (sim, put_states st.2 it.1 (particles sim))
  else Raise IndexError.

(** The cells after the time loop: plane [i] holds the particle states
    of the [i]-th simulation of the trajectory, the rest is [junk]. *)
Definition snapshots (junk : nat → nat → nat → F) (sims : list Simulation)
    : nat → nat → nat → F :=
  λ i j k, match sims !! i with
           | Some s => match particles s !! j with
                       | Some p => default (junk i j k) (state_of p !! k)
                       | None => junk i j k
                       end
           | None => junk i j k
           end.

(** The clock at each read-out. *)
Definition clocks (masses : list F) (coords : ndarray2) (times : list F)
    : result (list F) :=
  sim0 ← setup masses coords;
  fmap (M := list) sim_t <$> trajectory sim0 times.

(** The state of the loop with its array built from the cells. *)
Definition as_array (d0 d1 d2 : nat) (st : Simulation * (nat → nat → nat → F))
    : Simulation * ndarray3 :=
  (st.1, np_empty st.2 d0 d1 d2).

(** The particle handed to [sim.add] for index [i]: line 42 for the
    primary, lines 45-48 for the others. *)
Definition particle_of (masses : list F) (coords : ndarray2) (i : nat)
    : result Particle :=
  match i with
  | 0 => particle_args coords 0 fone
  | _ => mi ← getitem1 masses i;
         m0 ← getitem1 masses 0;
         particle_args coords i (fdiv mi m0)
  end.
End View.

(** ** Contracts of the integrator

    The [rebound] module is a third-party library and no part of the
    sources; what follows are the contracts the theorems rely on for the
    operations the specification lists (section 6: make a simulation, set
    its gravitational constant, add a particle, advance the simulation,
    read the particle states). Every theorem names the contracts it
    relies on. *)

(** Modelled from the spec: the particle container of the library, which
    is not in the sources. Particles are kept in the order they were
    added, with the values they were added with; integration keeps each
    particle's mass, hence their number. *)
Class ParticleLaws {Sc : Scalar} (R : Rebound Sc) : Prop := {
  particles_new s : new_simulation = Ok s → particles s = [];
  particles_set_G s g : particles (set_G s g) = particles s;
  particles_add s p s' : add s p = Ok s' → particles s' = particles s ++ [p];
  masses_integrate s dt s' :
    integrate s dt = Ok s' → p_m <$> particles s' = p_m <$> particles s;
}.

(** The clock of the library, which is not in the sources, as the library
    documents it: a new simulation stands at time zero, setting [G] or
    adding a particle leaves the clock where it is, and
    [Simulation.integrate(tmax)] integrates to the time [tmax], where the
    clock stands when the call returns (its [exact_finish_time] is on by
    default). No arithmetic on the clock is assumed. *)
Class IntegratesTo {Sc : Scalar} (R : Rebound Sc) : Prop := {
  clock_new s : new_simulation = Ok s → sim_t s = fzero;
  clock_set_G s g : sim_t (set_G s g) = sim_t s;
  clock_add s p s' : add s p = Ok s' → sim_t s' = sim_t s;
  clock_integrate s tmax s' : integrate s tmax = Ok s' → sim_t s' = tmax;
}.

(** Modelled from the spec: a library, itself not in the sources, that
    raises nothing while a simulation is made and populated ([Builds]),
    and nothing at all ([Total]). *)
Class Builds {Sc : Scalar} (R : Rebound Sc) : Prop := {
  new_total : is_ok new_simulation;
  add_total s p : is_ok (add s p);
}.

Class Total {Sc : Scalar} (R : Rebound Sc) : Prop := {
  total_builds : Builds R;
  integrate_total s dt : is_ok (integrate s dt);
}.
#[global] Existing Instance total_builds.

(** A lone particle [p] is left as it is by integration. *)
Definition lone_particle_static {Sc : Scalar} (R : Rebound Sc) (p : Particle) : Prop :=
  ∀ s dt s', particles s = [p] → integrate s dt = Ok s' → particles s' = [p].

(** The shape the contract of the evaluator asks of its inputs. *)
Definition valid_inputs {Sc : Scalar} (masses : list F) (coords : ndarray2) : Prop :=
  1 ≤ length masses ∧ wf2 coords ∧ shape2 coords = (length masses, 6).

(** ** Implementations of the interfaces *)

(** Whole numbers, where the arithmetic is exact; [/] is the floor
    quotient. *)
Definition ZScalar : Scalar := {|
  F := Z; fzero := 0%Z; fone := 1%Z;
  fadd := Z.add; fsub := Z.sub; fmul := Z.mul; fdiv := Z.div;
  fsqr x := (x * x)%Z;
|}.

(** IEEE 754 binary64, the [float64] of numpy. *)
Definition Float64 : Scalar := {|
  F := float; fzero := 0%float; fone := 1%float;
  fadd := PrimFloat.add; fsub := PrimFloat.sub; fmul := PrimFloat.mul;
  fdiv := PrimFloat.div;
  fsqr x := PrimFloat.mul x x;
|}.

(** A small integrator with the shape of the library: one kick-drift
    step per call, every pair of particles coupled through [G * m]
    (the pull grows linearly with the separation, which keeps the
    arithmetic exact). Its [integrate] takes the step to make, and
    [accepts] tells the step sizes it takes; [ToyTo] below takes the
    time to integrate to, as the library does. *)
Section Toy.
Context {Sc : Scalar}.
Variable accepts : F → bool.

Record toy_sim : Type := {
  toy_G : F;
  toy_t : F;
  toy_particles : list Particle;
}.

Definition toy_accel (G : F) (ps : list Particle) (coord : Particle → F)
    (p : Particle) : F :=
  foldr (λ q acc, fadd (fmul (fmul G (p_m q)) (fsub (coord q) (coord p))) acc)
        fzero ps.

Definition toy_move (G dt : F) (ps : list Particle) (p : Particle) : Particle :=
  let vx := fadd (p_vx p) (fmul (toy_accel G ps p_x p) dt) in
  let vy := fadd (p_vy p) (fmul (toy_accel G ps p_y p) dt) in
  let vz := fadd (p_vz p) (fmul (toy_accel G ps p_z p) dt) in
  {| p_m := p_m p;
     p_x := fadd (p_x p) (fmul vx dt);
     p_y := fadd (p_y p) (fmul vy dt);
     p_z := fadd (p_z p) (fmul vz dt);
     p_vx := vx; p_vy := vy; p_vz := vz |}.

Definition toy_integrate (s : toy_sim) (dt : F) : result toy_sim :=
  if accepts dt
  then Ok {| toy_G := toy_G s;
             toy_t := fadd (toy_t s) dt;
             toy_particles := toy_move (toy_G s) dt (toy_particles s)
                                <$> toy_particles s |}
  else Raise (SimulationError 1).

Definition Toy : Rebound Sc := {|
  Simulation := toy_sim;
  new_simulation := Ok {| toy_G := fone; toy_t := fzero; toy_particles := [] |};
  set_G s g := {| toy_G := g; toy_t := toy_t s; toy_particles := toy_particles s |};
  add s p := Ok {| toy_G := toy_G s; toy_t := toy_t s;
                   toy_particles := toy_particles s ++ [p] |};
  integrate := toy_integrate;
  sim_t := toy_t;
  particles := toy_particles;
|}.
End Toy.

(** The toy integrator over whole numbers, over floats, and one over whole
    numbers that refuses to integrate backwards. *)
Definition ToyZ : Rebound ZScalar := Toy (Sc := ZScalar) (λ _, true).
Definition ToyFloat : Rebound Float64 := Toy (Sc := Float64) (λ _, true).
Definition ToyForward : Rebound ZScalar := Toy (Sc := ZScalar) (λ dt, (0 <=? dt)%Z).

(** The toy integrator with the [integrate] of the library, which takes
    the time to integrate to: one kick-drift step over what is left up to
    [tmax], after which the clock stands at [tmax]. *)
Definition toy_integrate_to {Sc : Scalar} (s : toy_sim) (tmax : F) : result toy_sim :=
  let dt := fsub tmax (toy_t s) in
  Ok {| toy_G := toy_G s;
        toy_t := tmax;
        toy_particles := toy_move (toy_G s) dt (toy_particles s)
                           <$> toy_particles s |}.

Definition ToyTo {Sc : Scalar} : Rebound Sc := {|
  Simulation := toy_sim;
  new_simulation := Ok {| toy_G := fone; toy_t := fzero; toy_particles := [] |};
  set_G s g := {| toy_G := g; toy_t := toy_t s; toy_particles := toy_particles s |};
  add s p := Ok {| toy_G := toy_G s; toy_t := toy_t s;
                   toy_particles := toy_particles s ++ [p] |};
  integrate := toy_integrate_to;
  sim_t := toy_t;
  particles := toy_particles;
|}.
Definition ToyToZ : Rebound ZScalar := ToyTo (Sc := ZScalar).
Definition ToyToFloat : Rebound Float64 := ToyTo (Sc := Float64).

(** ** Sample inputs *)

Definition junk99 : nat → nat → nat → Z := λ _ _ _, 99%Z.
Definition junk7 : nat → nat → nat → Z := λ _ _ _, 7%Z.

(** One body moving along x, one body at rest, and a pair. *)
Definition lone_moving : @ndarray2 ZScalar :=
  @Build_ndarray2 ZScalar (1, 6) [[0; 0; 0; 1; 0; 0]%Z].
Definition lone_resting : @ndarray2 ZScalar :=
  @Build_ndarray2 ZScalar (1, 6) [[3; 4; 5; 0; 0; 0]%Z].
Definition pair_coords : @ndarray2 ZScalar :=
  @Build_ndarray2 ZScalar (2, 6) [[0; 0; 0; 1; 0; 0]%Z; [1; 0; 0; 0; 0; 0]%Z].

(** A primary at rest and two bodies around it. *)
Definition trio_coords : @ndarray2 ZScalar :=
  @Build_ndarray2 ZScalar (3, 6)
    [[0; 0; 0; 0; 0; 0]%Z; [1; 0; 0; 0; 1; 0]%Z; [0; 2; 0; (-1); 0; 0]%Z].

(** Three bodies in floats, with masses and states that are no binary
    fractions. *)
Definition float_trio_masses : list float := [13 / 10; 1 / 5; 7 / 10]%float.
Definition float_trio : @ndarray2 Float64 :=
  @Build_ndarray2 Float64 (3, 6)
    [[0; 0; 0; 0; 0; 0]%float;
     [1; 1 / 10; 0; 0; 7 / 10; 1 / 3]%float;
     [1 / 3; 2; 1 / 5; (-9) / 10; 0; 1 / 10]%float].

(** One body moving along x, in floats. *)
Definition float_lone : @ndarray2 Float64 :=
  @Build_ndarray2 Float64 (1, 6) [[0; 0; 0; 1; 0; 0]%float].

(** A pair at rest one unit apart, in floats. *)
Definition float_pair : @ndarray2 Float64 :=
  @Build_ndarray2 Float64 (2, 6)
    [[0; 0; 0; 0; 0; 0]%float; [1; 0; 0; 0; 0; 0]%float].
Definition float_junk : nat → nat → nat → float := λ _ _ _, 99%float.

(** A call whose second requested time lies before the first. *)
Definition backward_storage : @Storage ZScalar :=
  @Build_Storage ZScalar [2; 4]%Z pair_coords [5; 3]%Z None.

(** The toy simulation of [backward_storage] once populated, and the
    state of the time loop after its first iteration. *)
Definition backward_sim0 : @Simulation ZScalar ToyForward :=
  Eval vm_compute in
    match setup (R := ToyForward) [2; 4]%Z pair_coords with
    | Ok sim0 => sim0
    | Raise _ => Build_toy_sim (Sc := ZScalar) 0%Z 0%Z []
    end.
Definition backward_loop1 : @Simulation ZScalar ToyForward * @ndarray3 ZScalar :=
  Eval vm_compute in
    match for_each (enumerate (take 1 ([5; 3]%Z : list (@F ZScalar))))
            (step (R := ToyForward))
            (backward_sim0, np_empty (Sc := ZScalar) junk99 2 2 6) with
    | Ok st => st
    | Raise _ => (backward_sim0, np_empty (Sc := ZScalar) junk99 0 0 0)
    end.

(** [result[i, j, k]] of a call, when it returned. *)
Definition cell_of {Sc : Scalar} (r : result ndarray3) (i j k : nat) : option F :=
  match r with
  | Ok a => getitem3 a i j k
  | Raise _ => None
  end.

(** ** Permuted inputs *)

(** [l] taken in the order [σ]: entry [j] of the result is [l[σ[j]]]. *)
Definition permute {A : Type} (σ : list nat) (l : list A) : list A :=
  omap (λ i, l !! i) σ.

Definition permute_rows {Sc : Scalar} (σ : list nat) (a : ndarray2) : ndarray2 :=
  {| shape2 := shape2 a; rows2 := permute σ (rows2 a) |}.

(** The particle axis of a result taken in the order [σ]. *)
Definition permute_particles {Sc : Scalar} (σ : list nat) (a : ndarray3) : ndarray3 :=
  {| shape3 := shape3 a; cells3 := permute σ <$> cells3 a |}.



(** ** The claims of the specification that fail, as propositions *)




(** "A lone primary keeps its input state at every requested time." *)
Definition lone_primary_unchanged {Sc : Scalar} (R : Rebound Sc) : Prop :=
  ∀ junk m0 coords times res,
    valid_inputs [m0] coords →
    perform_results junk [m0] coords times = Ok res →
    ∀ t k, t < length times → k < 6 →
      ∃ v, getitem2 coords 0 k = Ok v ∧ getitem3 res t 0 k = Some v.


(** "Identical inputs give identical outputs", whatever the memory held. *)
Definition deterministic {Sc : Scalar} (R : Rebound Sc) : Prop :=
  ∀ junk1 junk2 masses coords times,
    wf2 coords →
    perform_results junk1 masses coords times
    = perform_results junk2 masses coords times.

(** "A zero primary mass makes the call fail." *)
Definition zero_primary_fails {Sc : Scalar} (R : Rebound Sc) : Prop :=
  ∀ junk masses coords times,
    valid_inputs masses coords → 2 ≤ length masses →
    masses !! 0 = Some fzero →
    ∃ e, perform_results junk masses coords times = Raise e.

(** ** ReboundOp.make_node

    [make_node] builds the graph node of the operator out of Theano's
    tensor variables. Of a variable only its type matters here, and of
    the type its [broadcastable] pattern: one flag per axis, set when the
    axis is known to have length one. *)

(** What [make_node] uses of [theano.tensor] and [theano.gof]. *)
Class Theano : Type := {
  PyObject : Type;              (* what the caller hands in *)
  TensorVariable : Type;
  TensorType : Type;
  as_tensor_variable : PyObject → result TensorVariable;
  shape_padright : TensorVariable → result TensorVariable;
  shape_padleft : TensorVariable → result TensorVariable;
  tensor_add : TensorVariable → TensorVariable → result TensorVariable;  (* a + b *)
  type_of : TensorVariable → TensorType;          (* v.type *)
  make_variable : TensorType → TensorVariable;    (* ty() *)
  broadcastable : TensorType → list bool;         (* ty.broadcastable *)
}.

(** [gof.Apply(op, inputs, outputs)], for the one operator of the file. *)
Record Apply {T : Theano} : Type := {
  node_inputs : list TensorVariable;
  node_outputs : list TensorVariable;
}.

(** [l[i]] on a Python list. *)
Definition list_getitem {A : Type} (l : list A) (i : nat) : result A :=
  match l !! i with Some v => Ok v | None => Raise IndexError end.

(** Lines 18-26. *)
Definition make_node {T : Theano} (masses coords times : PyObject) : result Apply :=
  m ← as_tensor_variable masses;
  c ← as_tensor_variable coords;
  t ← as_tensor_variable times;
  let in_args := [m; c; t] in
  a2 ← list_getitem in_args 2;
  right ← shape_padright a2;
  a1 ← list_getitem in_args 1;
  left ← shape_padleft a1;
  total ← tensor_add right left;
  let out_args := [make_variable (type_of total)] in
  Ok {| node_inputs := in_args; node_outputs := out_args |}.

(** A pattern padded on the left with broadcastable axes up to [n] axes. *)
Definition pad_pattern (n : nat) (l : list bool) : list bool :=
  replicate (n - length l) true ++ l.

(** The typing rules of the Theano operations [make_node] applies
    ([DimShuffle] puts a broadcastable axis where it adds one; an
    elementwise operation pads the argument with fewer axes on the left
    and keeps an axis broadcastable when it is so in every argument). The
    library is no part of the sources. *)
Class TheanoLaws (T : Theano) : Prop := {
  type_of_make_variable ty : type_of (make_variable ty) = ty;
  padright_pattern v w :
    shape_padright v = Ok w →
    broadcastable (type_of w) = broadcastable (type_of v) ++ [true];
  padleft_pattern v w :
    shape_padleft v = Ok w →
    broadcastable (type_of w) = true :: broadcastable (type_of v);
  add_pattern a b c :
    tensor_add a b = Ok c →
    broadcastable (type_of c)
    = zip_with andb
        (pad_pattern (length (broadcastable (type_of a))
                        `max` length (broadcastable (type_of b)))
           (broadcastable (type_of a)))
        (pad_pattern (length (broadcastable (type_of a))
                        `max` length (broadcastable (type_of b)))
           (broadcastable (type_of b)));
}.

(** Tensor variables reduced to their broadcastable pattern. *)
Definition Patterns : Theano := {|
  PyObject := list bool;
  TensorVariable := list bool;
  TensorType := list bool;
  as_tensor_variable v := Ok v;
  shape_padright v := Ok (v ++ [true]);
  shape_padleft v := Ok (true :: v);
  tensor_add a b :=
    Ok (zip_with andb (pad_pattern (length a `max` length b) a)
                      (pad_pattern (length a `max` length b) b));
  type_of v := v;
  make_variable ty := ty;
  broadcastable ty := ty;
|}.

(** An integrator that moves the clock and nothing else. *)
Definition Still : Rebound ZScalar := {|
  Simulation := toy_sim (Sc := ZScalar);
  new_simulation := new_simulation (Rebound := ToyZ);
  set_G := set_G (Rebound := ToyZ);
  add := add (Rebound := ToyZ);
  integrate s dt :=
    Ok (Build_toy_sim (Sc := ZScalar) (toy_G s) (toy_t s + dt)%Z (toy_particles s));
  sim_t := toy_t;
  particles := toy_particles;
|}.

(** ** More sample inputs *)

(** A lone body in an array of seven columns, and an array with no row. *)
Definition wide_coords : @ndarray2 ZScalar :=
  @Build_ndarray2 ZScalar (1, 7) [[0; 0; 0; 1; 0; 0; 8]%Z].
Definition no_rows : @ndarray2 ZScalar := @Build_ndarray2 ZScalar (0, 6) [].

(** [pair_coords] with another second row. *)
Definition pair_coords' : @ndarray2 ZScalar :=
  @Build_ndarray2 ZScalar (2, 6) [[0; 0; 0; 1; 0; 0]%Z; [7; 7; 7; 7; 7; 7]%Z].

(** * Proofs *)

(** Reduce the binds of [result] and nothing else. *)
Ltac simpl_result := cbn [mbind result_bind fmap result_fmap mret result_ret].
Ltac simpl_result_all :=
  cbn [mbind result_bind fmap result_fmap mret result_ret] in *.

(** ** Loops *)

Section ForEach.
Context {A St : Type}.
Implicit Types (xs ys : list A) (body : St → A → result St).

Lemma for_each_app xs ys body st :
  for_each (xs ++ ys) body st = st' ← for_each xs body st; for_each ys body st'.
Proof.
  revert st. induction xs as [|x xs IH]; intros st; simpl; [done|].
  destruct (body st x) as [st'|e]; simpl; [apply IH|done].
Qed.

Lemma for_each_snoc xs x body st :
  for_each (xs ++ [x]) body st = st' ← for_each xs body st; body st' x.
Proof.
  rewrite for_each_app. destruct (for_each xs body st) as [st'|e]; simpl; [|done].
  by destruct (body st' x).
Qed.
End ForEach.

(** A loop over a representation of the state follows the loop over the
    state it represents. *)
Lemma for_each_embed {A St1 St2 : Type} (emb : St1 → St2)
    (body1 : St1 → A → result St1) (body2 : St2 → A → result St2) xs st :
  (∀ st x, body2 (emb st) x = emb <$> body1 st x) →
  for_each xs body2 (emb st) = emb <$> for_each xs body1 st.
Proof.
  intros Hbody. revert st. induction xs as [|x xs IH]; intros st; simpl; [done|].
  rewrite Hbody. destruct (body1 st x) as [st'|e]; simpl; [apply IH|done].
Qed.

(** A loop whose body acts on a projection of the state. *)
Lemma for_each_proj {A St1 St2 : Type} (proj : St2 → St1)
    (body1 : St1 → A → result St1) (body2 : St2 → A → result St2) xs st :
  (∀ st x, proj <$> body2 st x = body1 (proj st) x) →
  proj <$> for_each xs body2 st = for_each xs body1 (proj st).
Proof.
  intros Hbody. revert st. induction xs as [|x xs IH]; intros st; simpl; [done|].
  rewrite <- Hbody. destruct (body2 st x) as [st'|e]; simpl; [apply IH|done].
Qed.

Lemma default_last_cons {A : Type} (a b : A) (l : list A) :
  default a (last (b :: l)) = default b (last l).
Proof.
  destruct l as [|c l _] using rev_ind; [done|].
  by rewrite last_cons, !last_snoc.
Qed.

Lemma enumerate_snoc {A : Type} (l : list A) (x : A) :
  enumerate (l ++ [x]) = enumerate l ++ [(length l, x)].
Proof.
  unfold enumerate. rewrite length_app. simpl.
  rewrite seq_app. simpl. rewrite zip_with_app by (by rewrite length_seq). done.
Qed.

Lemma enumerate_take {A : Type} (l : list A) (i : nat) (x : A) :
  l !! i = Some x →
  enumerate (take (S i) l) = enumerate (take i l) ++ [(i, x)].
Proof.
  intros Hx. rewrite (take_S_r l i x Hx), enumerate_snoc.
  rewrite length_take. apply lookup_lt_Some in Hx.
  by replace (i `min` length l) with i by lia.
Qed.

(** ** Arrays *)

Lemma alter_fmap_seq {A : Type} (g : A → A) (f : nat → A) (i n : nat) :
  alter g i (f <$> seq 0 n)
  = (λ i', if (i' =? i)%nat then g (f i') else f i') <$> seq 0 n.
Proof.
  apply list_eq. intros k. rewrite list_lookup_fmap.
  destruct (decide (i = k)) as [->|Hne].
  - rewrite list_lookup_alter_eq, list_lookup_fmap.
    destruct (seq 0 n !! k) eqn:E; simpl; [|done].
    apply lookup_seq in E as [-> _]. simpl. by rewrite Nat.eqb_refl.
  - rewrite list_lookup_alter_ne, list_lookup_fmap by done.
    destruct (seq 0 n !! k) eqn:E; simpl; [|done].
    apply lookup_seq in E as [-> _]. simpl.
    destruct (Nat.eqb_spec k i); [congruence|done].
Qed.

Lemma insert_fmap_seq {A : Type} (v : A) (f : nat → A) (i n : nat) :
  <[i := v]> (f <$> seq 0 n)
  = (λ i', if (i' =? i)%nat then v else f i') <$> seq 0 n.
Proof.
  apply list_eq. intros k.
  rewrite list_lookup_insert, !list_lookup_fmap, length_fmap, length_seq.
  destruct (seq 0 n !! k) eqn:E; simpl.
  - apply lookup_seq in E as [-> Hk]. simpl.
    case_decide as Hik; destruct (Nat.eqb_spec k i); try done; lia.
  - case_decide as Hik; [|done].
    apply lookup_ge_None in E. rewrite length_seq in E. lia.
Qed.

Section ArrayFacts.
Context {Sc : Scalar}.
Implicit Types (f g : nat → nat → nat → F).

Lemma np_empty_ext f g d0 d1 d2 :
  (∀ i j k, i < d0 → j < d1 → k < d2 → f i j k = g i j k) →
  np_empty f d0 d1 d2 = np_empty g d0 d1 d2.
Proof.
  intros Hfg. unfold np_empty. f_equal.
  apply list_fmap_ext. intros i ? [-> Hi]%lookup_seq.
  apply list_fmap_ext. intros j ? [-> Hj]%lookup_seq.
  apply list_fmap_ext. intros k ? [-> Hk]%lookup_seq.
  simpl. by apply Hfg.
Qed.

Lemma getitem3_np_empty f d0 d1 d2 i j k :
  i < d0 → j < d1 → k < d2 →
  getitem3 (np_empty f d0 d1 d2) i j k = Some (f i j k).
Proof.
  intros Hi Hj Hk. unfold getitem3, np_empty. simpl.
  rewrite list_lookup_fmap, (lookup_seq_lt 0 d0 i Hi). simpl.
  rewrite list_lookup_fmap, (lookup_seq_lt 0 d1 j Hj). simpl.
  by rewrite list_lookup_fmap, (lookup_seq_lt 0 d2 k Hk).
Qed.

Lemma setitem3_np_empty f d0 d1 d2 i j k v :
  setitem3 (np_empty f d0 d1 d2) i j k v
  = if ((i <? d0) && (j <? d1) && (k <? d2))%nat
    then Ok (np_empty (put_cell f i j k v) d0 d1 d2)
    else Raise IndexError.
Proof.
  unfold setitem3. simpl.
  destruct ((i <? d0) && (j <? d1) && (k <? d2))%nat; [|done].
  f_equal. unfold np_empty. f_equal. simpl.
  rewrite alter_fmap_seq.
  apply list_fmap_ext. intros i' ? [-> _]%lookup_seq. simpl.
  destruct (Nat.eqb_spec i' i) as [->|Hi].
  - rewrite alter_fmap_seq.
    apply list_fmap_ext. intros j' ? [-> _]%lookup_seq. simpl.
    destruct (Nat.eqb_spec j' j) as [->|Hj].
    + rewrite insert_fmap_seq.
      apply list_fmap_ext. intros k' ? [-> _]%lookup_seq. simpl.
      unfold put_cell. by rewrite !Nat.eqb_refl.
    + apply list_fmap_ext. intros k' ? [-> _]%lookup_seq. simpl.
      unfold put_cell. rewrite Nat.eqb_refl.
      by destruct (Nat.eqb_spec j' j).
  - apply list_fmap_ext. intros j' ? [-> _]%lookup_seq. simpl.
    apply list_fmap_ext. intros k' ? [-> _]%lookup_seq. simpl.
    unfold put_cell. by destruct (Nat.eqb_spec i' i).
Qed.

Lemma coord_names :
  enumerate (split "x y z vx vy vz"%string)
  = [(0, "x"); (1, "y"); (2, "z"); (3, "vx"); (4, "vy"); (5, "vz")]%string.
Proof. reflexivity. Qed.
End ArrayFacts.

(** ** The read-out loops, on cells as functions *)

Section Readout.
Context {Sc : Scalar} {R : Rebound Sc}.
Implicit Types (f g : nat → nat → nat → F) (p : Particle).

Lemma write_particle_np_empty f d0 d1 d2 i j p :
  write_particle i (np_empty f d0 d1 d2) (j, p)
  = if ((i <? d0) && (j <? d1) && (6 <=? d2))%nat
    then Ok (np_empty (put_state f i j p) d0 d1 d2)
    else Raise IndexError.
Proof.
  unfold write_particle. rewrite coord_names. unfold write_coord.
  destruct (6 <=? d2)%nat eqn:Hd; rewrite ?andb_false_r, ?andb_true_r; simpl.
  2: destruct (i <? d0)%nat eqn:Hi, (j <? d1)%nat eqn:Hj;
    try (rewrite setitem3_np_empty, Hi, Hj; simpl; rewrite ?andb_false_r; done).
  1: destruct (i <? d0)%nat eqn:Hi, (j <? d1)%nat eqn:Hj;
    try (rewrite setitem3_np_empty, Hi, Hj; simpl; rewrite ?andb_false_r; done).
  - apply Nat.leb_le in Hd.
    do 6 (rewrite setitem3_np_empty, Hi, Hj; simpl;
          match goal with
          | |- context [(?k <? d2)%nat] =>
              replace (k <? d2)%nat with true by (symmetry; apply Nat.ltb_lt; lia)
          end; simpl).
    f_equal. apply np_empty_ext. intros i' j' k' _ _ _.
    unfold put_cell, put_state, state_of.
    destruct (i' =? i)%nat, (j' =? j)%nat; simpl; try done.
    do 6 (destruct k' as [|k']; [done|]). done.
  - apply Nat.leb_gt in Hd.
    do 6 (destruct d2 as [|d2];
          [by repeat (rewrite setitem3_np_empty, Hi, Hj; simpl)|]).
    lia.
Qed.

Lemma write_particles_np_empty f d0 d1 d2 i (ps : list Particle) :
  for_each (enumerate ps) (write_particle i) (np_empty f d0 d1 d2)
  = if fits d0 d1 d2 i ps
    then Ok (np_empty (put_states f i ps) d0 d1 d2)
    else Raise IndexError.
Proof.
  induction ps as [|p ps IH] using rev_ind.
  - simpl. f_equal. apply np_empty_ext. intros i' j' k' _ _ _.
    unfold put_states. by destruct (i' =? i)%nat.
  - rewrite enumerate_snoc, for_each_snoc, IH.
    assert (Hfits : fits d0 d1 d2 i (ps ++ [p])
                    = ((i <? d0) && (length ps <? d1) && (6 <=? d2))%nat).
    { unfold fits. destruct (ps ++ [p]) eqn:E.
      - by destruct ps.
      - rewrite <- E, length_app. simpl.
        replace (length ps + 1 <=? d1)%nat with (length ps <? d1)%nat; [done|].
        destruct (Nat.ltb_spec (length ps) d1), (Nat.leb_spec (length ps + 1) d1);
          try done; exfalso; lia. }
    rewrite Hfits.
    destruct (fits d0 d1 d2 i ps) eqn:Hps; simpl_result.
    + rewrite write_particle_np_empty.
      destruct ((i <? d0) && (length ps <? d1) && (6 <=? d2))%nat; [|done].
      f_equal. apply np_empty_ext. intros i' j' k' _ _ _.
      unfold put_state, put_states.
      destruct (Nat.eqb_spec i' i) as [->|]; simpl; [|done].
      destruct (Nat.eqb_spec j' (length ps)) as [->|Hj].
      * rewrite lookup_app_r, Nat.sub_diag by done. simpl.
        by rewrite (lookup_ge_None_2 ps) by done.
      * destruct (decide (j' < length ps)).
        -- by rewrite lookup_app_l.
        -- rewrite !lookup_ge_None_2; [done| |lia].
           rewrite length_app. simpl. lia.
    + unfold fits in Hps. destruct ps as [|q ps]; [done|].
      destruct (i <? d0)%nat; [|done].
      destruct (6 <=? d2)%nat; rewrite ?andb_false_r in *; [|done].
      rewrite ?andb_true_l, ?andb_true_r in *.
      apply Nat.leb_gt in Hps.
      destruct (Nat.ltb_spec (length (q :: ps)) d1); [lia|done].
Qed.

(** [step] on the array follows [step_fn] on its cells. *)
Lemma step_as_array d0 d1 d2 st it :
  step (as_array d0 d1 d2 st) it = as_array d0 d1 d2 <$> step_fn d0 d1 d2 st it.
Proof.
  unfold step, step_fn, advance, as_array. simpl.
  destruct (integrate st.1 (fsub it.2 (sim_t st.1))) as [sim|e]; simpl; [|done].
  rewrite write_particles_np_empty.
  by destruct (fits d0 d1 d2 it.1 (particles sim)).
Qed.

Lemma run_as_array junk masses coords times :
  run junk masses coords times
  = sim ← setup masses coords;
    as_array (length times) (shape2 coords).1 (shape2 coords).2
      <$> for_each (enumerate times)
            (step_fn (length times) (shape2 coords).1 (shape2 coords).2)
            (sim, junk).
Proof.
  unfold run. destruct (setup masses coords) as [sim|e]; simpl; [|done].
  apply (for_each_embed (as_array _ _ _) _ _ _ (sim, junk)).
  intros st x. apply step_as_array.
Qed.
End Readout.

(** ** The time loop and the trajectory *)

Section TimeLoop.
Context {Sc : Scalar} {R : Rebound Sc}.
Implicit Types (f g : nat → nat → nat → F) (sims : list Simulation).

Lemma trajectory_length s ts sims :
  trajectory s ts = Ok sims → length sims = length ts.
Proof.
  revert s sims. induction ts as [|t ts IH]; intros s sims; simpl.
  - by intros [= <-].
  - destruct (advance s t) as [s1|e]; simpl; [|done].
    destruct (trajectory s1 ts) as [sims1|e] eqn:E; simpl; [|done].
    intros [= <-]. simpl. f_equal. by eapply IH.
Qed.

Lemma trajectory_snoc s ts t :
  trajectory s (ts ++ [t])
  = sims ← trajectory s ts;
    s' ← advance (default s (last sims)) t;
    Ok (sims ++ [s']).
Proof.
  revert s. induction ts as [|t0 ts IH]; intros s; simpl.
  - by destruct (advance s t).
  - destruct (advance s t0) as [s1|e]; simpl; [|done].
    rewrite IH. destruct (trajectory s1 ts) as [sims|e]; simpl; [|done].
    rewrite default_last_cons.
    by destruct (advance (default s1 (last sims)) t).
Qed.

(** Iteration [i] starts from the simulation iteration [i - 1] left and
    makes the call of line 51. *)
Lemma trajectory_lookup s ts sims i t :
  trajectory s ts = Ok sims → ts !! i = Some t →
  ∃ before after,
    (s :: sims) !! i = Some before ∧ sims !! i = Some after ∧
    advance before t = Ok after.
Proof.
  revert s sims i. induction ts as [|t0 ts IH]; intros s sims i; simpl; [done|].
  destruct (advance s t0) as [s1|e] eqn:Hadv; simpl; [|done].
  destruct (trajectory s1 ts) as [sims1|e] eqn:E; simpl; [|done].
  intros [= <-]. destruct i as [|i]; simpl.
  - intros [= ->]. by exists s, s1.
  - intros Ht. by apply (IH s1).
Qed.

Lemma loop_fn_ok d0 d1 d2 ts s f s' f' :
  for_each (enumerate ts) (step_fn d0 d1 d2) (s, f) = Ok (s', f') →
  ∃ sims,
    trajectory s ts = Ok sims ∧ s' = default s (last sims) ∧
    (∀ i si, sims !! i = Some si → fits d0 d1 d2 i (particles si) = true) ∧
    ∀ i j k, f' i j k = snapshots f sims i j k.
Proof.
  revert s' f'. induction ts as [|t ts IH] using rev_ind; intros s' f'.
  - simpl. intros [= <- <-]. exists []. repeat split; try done.
  - rewrite enumerate_snoc, for_each_snoc.
    destruct (for_each (enumerate ts) (step_fn d0 d1 d2) (s, f))
      as [[s1 f1]|e] eqn:E; simpl_result; [|done].
    destruct (IH s1 f1 eq_refl) as (sims & Htraj & -> & Hfits & Hcells).
    unfold step_fn. simpl.
    destruct (advance (default s (last sims)) t) as [s2|e] eqn:Hadv;
      simpl_result; [|done].
    destruct (fits d0 d1 d2 (length ts) (particles s2)) eqn:Hfit; [|done].
    intros [= <- <-]. exists (sims ++ [s2]).
    pose proof (trajectory_length _ _ _ Htraj) as Hlen.
    repeat split.
    + rewrite trajectory_snoc, Htraj. simpl_result. by rewrite Hadv.
    + by rewrite last_snoc.
    + intros i si Hi. destruct (decide (i < length sims)) as [Hlt|Hge].
      * rewrite lookup_app_l in Hi by done. by eapply Hfits.
      * rewrite lookup_app_r in Hi by lia.
        destruct (i - length sims) as [|m] eqn:En; [|by destruct m].
        injection Hi as <-. by replace i with (length ts) by lia.
    + intros i j k. unfold put_states, snapshots. rewrite Hcells.
      destruct (Nat.eqb_spec i (length ts)) as [->|Hne].
      * rewrite <- Hlen, lookup_app_r, Nat.sub_diag by done. simpl.
        unfold snapshots. by rewrite (lookup_ge_None_2 sims) by done.
      * unfold snapshots. destruct (decide (i < length sims)).
        -- by rewrite lookup_app_l.
        -- rewrite !lookup_ge_None_2; [done| |lia].
           rewrite length_app. simpl. lia.
Qed.

Lemma loop_fn_succeeds d0 d1 d2 ts s f sims :
  trajectory s ts = Ok sims →
  (∀ i si, sims !! i = Some si → fits d0 d1 d2 i (particles si) = true) →
  ∃ f', for_each (enumerate ts) (step_fn d0 d1 d2) (s, f)
        = Ok (default s (last sims), f') ∧
        ∀ i j k, f' i j k = snapshots f sims i j k.
Proof.
  revert sims. induction ts as [|t ts IH] using rev_ind; intros sims.
  - simpl. intros [= <-] _. by exists f.
  - rewrite trajectory_snoc.
    destruct (trajectory s ts) as [sims0|e] eqn:Htraj; simpl_result; [|done].
    destruct (advance (default s (last sims0)) t) as [s2|e] eqn:Hadv;
      simpl_result; [|done].
    intros [= <-] Hfits.
    pose proof (trajectory_length _ _ _ Htraj) as Hlen.
    destruct (IH sims0 eq_refl) as (f0 & Hloop & Hcells).
    { intros i si Hi. apply Hfits. rewrite lookup_app_l; [done|].
      by eapply lookup_lt_Some. }
    rewrite enumerate_snoc, for_each_snoc, Hloop. simpl_result.
    unfold step_fn. simpl. rewrite Hadv. simpl_result.
    rewrite <- Hlen, (Hfits (length sims0) s2)
      by (by rewrite lookup_app_r, Nat.sub_diag by done).
    eexists. split; [by rewrite last_snoc|].
    intros i j k. unfold put_states, snapshots. rewrite Hcells.
    destruct (Nat.eqb_spec i (length sims0)) as [->|Hne].
    + rewrite lookup_app_r, Nat.sub_diag by done. simpl.
      unfold snapshots. by rewrite (lookup_ge_None_2 sims0) by done.
    + unfold snapshots. destruct (decide (i < length sims0)).
      * by rewrite lookup_app_l.
      * rewrite !lookup_ge_None_2; [done| |lia].
        rewrite length_app. simpl. lia.
Qed.

(** Whether and how the loop ends does not depend on the cells. *)
Lemma loop_fn_control d0 d1 d2 its s f g :
  fst <$> for_each its (step_fn d0 d1 d2) (s, f)
  = fst <$> for_each its (step_fn d0 d1 d2) (s, g).
Proof.
  revert s f g. induction its as [|it its IH]; intros s f g; simpl; [done|].
  assert (Hstep : ∀ h, step_fn d0 d1 d2 (s, h) it
            = sim ← advance s it.2;
              if fits d0 d1 d2 it.1 (particles sim)
              then Ok (sim, put_states h it.1 (particles sim))
              else Raise IndexError) by done.
  rewrite !Hstep. clear Hstep.
  destruct (advance s it.2) as [s1|e]; simpl_result; [|done].
  destruct (fits d0 d1 d2 it.1 (particles s1)); simpl_result; [apply IH|done].
Qed.

Lemma run_ok junk masses coords times s res :
  run junk masses coords times = Ok (s, res) →
  ∃ sim0 sims,
    setup masses coords = Ok sim0 ∧ trajectory sim0 times = Ok sims ∧
    s = default sim0 (last sims) ∧
    (∀ i si, sims !! i = Some si →
       fits (length times) (shape2 coords).1 (shape2 coords).2 i (particles si) = true) ∧
    res = np_empty (snapshots junk sims)
            (length times) (shape2 coords).1 (shape2 coords).2.
Proof.
  rewrite run_as_array.
  destruct (setup masses coords) as [sim0|e]; simpl_result; [|done].
  destruct (for_each _ _ _) as [[s1 f1]|e] eqn:E; simpl_result; [|done].
  intros [= <- <-].
  destruct (loop_fn_ok _ _ _ _ _ _ _ _ E) as (sims & Htraj & -> & Hfits & Hcells).
  exists sim0, sims. repeat split; try done.
  apply np_empty_ext. intros i j k _ _ _. apply Hcells.
Qed.

Lemma run_succeeds junk masses coords times sim0 sims :
  setup masses coords = Ok sim0 → trajectory sim0 times = Ok sims →
  (∀ i si, sims !! i = Some si →
     fits (length times) (shape2 coords).1 (shape2 coords).2 i (particles si) = true) →
  run junk masses coords times
  = Ok (default sim0 (last sims),
        np_empty (snapshots junk sims)
          (length times) (shape2 coords).1 (shape2 coords).2).
Proof.
  intros Hsetup Htraj Hfits. rewrite run_as_array, Hsetup. simpl_result.
  destruct (loop_fn_succeeds _ _ _ _ _ junk _ Htraj Hfits) as (f' & -> & Hcells).
  simpl_result. unfold as_array. simpl. do 2 f_equal.
  apply np_empty_ext. intros i j k _ _ _. apply Hcells.
Qed.

(** Whether [run] raises, and what, does not depend on the memory the
    result array was allocated in. *)
Lemma run_control junk1 junk2 masses coords times :
  fst <$> run junk1 masses coords times = fst <$> run junk2 masses coords times.
Proof.
  rewrite !run_as_array.
  destruct (setup masses coords) as [sim0|e]; simpl_result; [|done].
  pose proof (loop_fn_control (length times) (shape2 coords).1 (shape2 coords).2
                (enumerate times) sim0 junk1 junk2) as H.
  destruct (for_each _ _ (sim0, junk1)) as [[s1 f1]|e1],
           (for_each _ _ (sim0, junk2)) as [[s2 f2]|e2];
    simpl in *; congruence.
Qed.
End TimeLoop.

(** ** Populating the simulation *)

Section Setup.
Context {Sc : Scalar} {R : Rebound Sc}.
Implicit Types (masses : list F) (coords : ndarray2) (p : Particle).

Lemma particle_args_ok coords i mass p :
  particle_args coords i mass = Ok p →
  p_m p = mass ∧ getitem2 coords i <$> seq 0 6 = Ok <$> state_of p.
Proof.
  unfold particle_args.
  destruct (getitem2 coords i 0) as [x|] eqn:H0; simpl_result; [|done].
  destruct (getitem2 coords i 1) as [y|] eqn:H1; simpl_result; [|done].
  destruct (getitem2 coords i 2) as [z|] eqn:H2; simpl_result; [|done].
  destruct (getitem2 coords i 3) as [vx|] eqn:H3; simpl_result; [|done].
  destruct (getitem2 coords i 4) as [vy|] eqn:H4; simpl_result; [|done].
  destruct (getitem2 coords i 5) as [vz|] eqn:H5; simpl_result; [|done].
  intros [= <-]. split; [done|]. simpl. by rewrite H0, H1, H2, H3, H4, H5.
Qed.

Lemma getitem2_is_ok coords i k :
  wf2 coords → i < (shape2 coords).1 → k < (shape2 coords).2 →
  is_ok (getitem2 coords i k).
Proof.
  intros [Hrows Hcols] Hi Hk. unfold getitem2.
  destruct (lookup_lt_is_Some_2 (rows2 coords) i) as [row Hrow]; [lia|].
  rewrite Hrow. simpl.
  rewrite Forall_lookup in Hcols. specialize (Hcols i row Hrow).
  destruct (lookup_lt_is_Some_2 row k) as [v Hv]; [lia|].
  rewrite Hv. by eexists.
Qed.

Lemma particle_args_is_ok coords i mass :
  wf2 coords → i < (shape2 coords).1 → 6 ≤ (shape2 coords).2 →
  is_ok (particle_args coords i mass).
Proof.
  intros Hwf Hi Hk. unfold particle_args.
  destruct (getitem2_is_ok coords i 0 Hwf Hi) as [? ->]; [lia|].
  destruct (getitem2_is_ok coords i 1 Hwf Hi) as [? ->]; [lia|].
  destruct (getitem2_is_ok coords i 2 Hwf Hi) as [? ->]; [lia|].
  destruct (getitem2_is_ok coords i 3 Hwf Hi) as [? ->]; [lia|].
  destruct (getitem2_is_ok coords i 4 Hwf Hi) as [? ->]; [lia|].
  destruct (getitem2_is_ok coords i 5 Hwf Hi) as [? ->]; [lia|].
  by eexists.
Qed.

Lemma particle_of_is_ok masses coords i :
  wf2 coords → i < length masses → i < (shape2 coords).1 →
  6 ≤ (shape2 coords).2 →
  is_ok (particle_of masses coords i).
Proof.
  intros Hwf Hm Hi Hk. destruct i as [|i]; simpl.
  - by apply particle_args_is_ok.
  - unfold getitem1.
    destruct (lookup_lt_is_Some_2 masses (S i) Hm) as [mi ->].
    destruct (lookup_lt_is_Some_2 masses 0) as [m0 ->]; [lia|].
    simpl_result. by apply particle_args_is_ok.
Qed.

Lemma add_secondary_eq masses coords sim i :
  add_secondary masses coords sim i
  = mi ← getitem1 masses i;
    m0 ← getitem1 masses 0;
    p ← particle_args coords i (fdiv mi m0);
    add sim p.
Proof. done. Qed.

Lemma secondaries_adds masses coords n a sim sim' :
  1 ≤ a →
  for_each (seq a n) (add_secondary masses coords) sim = Ok sim' →
  ∃ ps, length ps = n ∧
        (∀ i p, ps !! i = Some p → particle_of masses coords (a + i) = Ok p) ∧
        for_each ps add sim = Ok sim'.
Proof.
  revert a sim. induction n as [|n IH]; intros a sim Ha; simpl.
  - intros [= <-]. by exists [].
  - rewrite add_secondary_eq.
    destruct (getitem1 masses a) as [mi|] eqn:Hmi; simpl_result; [|done].
    destruct (getitem1 masses 0) as [m0|] eqn:Hm0; simpl_result; [|done].
    destruct (particle_args coords a (fdiv mi m0)) as [p|] eqn:Hp;
      simpl_result; [|done].
    destruct (add sim p) as [sim1|] eqn:Hadd; simpl_result; [|done].
    intros Hrest. destruct (IH (S a) sim1) as (ps & Hlen & Hps & Hadds); [lia|done|].
    exists (p :: ps). split; [by simpl; f_equal|]. split.
    + intros [|i] q; simpl.
      * intros [= <-]. rewrite Nat.add_0_r. destruct a as [|a]; [lia|].
        simpl. by rewrite Hmi, Hm0.
      * intros Hq. replace (a + S i) with (S a + i) by lia. by apply Hps.
    + simpl. by rewrite Hadd.
Qed.

(** [setup] makes one simulation, sets [G] on it and adds one particle
    per mass, in the order of the input. *)
Lemma setup_adds masses coords sim :
  setup masses coords = Ok sim →
  ∃ s0 m0 ps,
    new_simulation = Ok s0 ∧ masses !! 0 = Some m0 ∧
    length ps = length masses ∧
    (∀ i p, ps !! i = Some p → particle_of masses coords i = Ok p) ∧
    for_each ps add (set_G s0 (fsqr m0)) = Ok sim.
Proof.
  unfold setup. destruct new_simulation as [s0|]; simpl_result; [|done].
  unfold getitem1 at 1. destruct (masses !! 0) as [m0|] eqn:Hm0; simpl_result; [|done].
  destruct (particle_args coords 0 fone) as [p0|] eqn:Hp0; simpl_result; [|done].
  destruct (add (set_G s0 (fsqr m0)) p0) as [sim1|] eqn:Hadd; simpl_result; [|done].
  intros Hrest. apply secondaries_adds in Hrest as (ps & Hlen & Hps & Hadds); [|done].
  exists s0, m0, (p0 :: ps). repeat split; try done.
  - simpl. rewrite Hlen. apply lookup_lt_Some in Hm0. lia.
  - intros [|i] q; simpl; [by intros [= <-]|]. apply Hps.
  - simpl. by rewrite Hadd.
Qed.

Lemma secondaries_succeed `{!Builds R} masses coords n a sim :
  (∀ i, a ≤ i < a + n → is_ok (particle_of masses coords i)) → 1 ≤ a →
  is_ok (for_each (seq a n) (add_secondary masses coords) sim).
Proof.
  revert a sim. induction n as [|n IH]; intros a sim Hps Ha; simpl; [by eexists|].
  destruct (Hps a) as [p Hp]; [lia|].
  destruct a as [|a]; [lia|]. simpl in Hp. rewrite add_secondary_eq.
  destruct (getitem1 masses (S a)) as [mi|]; simpl_result_all; [|done].
  destruct (getitem1 masses 0) as [m0|]; simpl_result_all; [|done].
  rewrite Hp. simpl_result.
  destruct (add_total sim p) as [sim1 ->]. simpl_result.
  apply IH; [|lia]. intros i Hi. apply Hps. lia.
Qed.

Lemma setup_succeeds `{!Builds R} masses coords :
  1 ≤ length masses →
  (∀ i, i < length masses → is_ok (particle_of masses coords i)) →
  is_ok (setup masses coords).
Proof.
  intros Hn Hps. unfold setup.
  destruct new_total as [s0 ->]. simpl_result.
  unfold getitem1 at 1.
  destruct (lookup_lt_is_Some_2 masses 0) as [m0 ->]; [lia|]. simpl_result.
  destruct (Hps 0) as [p0 Hp0]; [lia|]. simpl in Hp0. rewrite Hp0. simpl_result.
  destruct (add_total (set_G s0 (fsqr m0)) p0) as [sim1 ->]. simpl_result.
  apply secondaries_succeed; [|done].
  intros i Hi. apply Hps. unfold range in *. lia.
Qed.
End Setup.

(** ** What the contracts of the integrator give *)

Section Laws.
Context {Sc : Scalar} {R : Rebound Sc}.
Implicit Types (masses : list F) (coords : ndarray2) (p : Particle).

Lemma adds_particles `{!ParticleLaws R} (ps : list Particle) sim sim' :
  for_each ps add sim = Ok sim' → particles sim' = particles sim ++ ps.
Proof.
  revert sim. induction ps as [|p ps IH]; intros sim; simpl.
  - intros [= <-]. by rewrite app_nil_r.
  - destruct (add sim p) as [sim1|] eqn:Hadd; simpl_result; [|done].
    intros Hrest. rewrite (IH _ Hrest), (particles_add _ _ _ Hadd).
    by rewrite <- app_assoc.
Qed.

(** After [setup] the simulation holds one particle per mass, particle
    [i] being the one made from [masses[i]] and row [i] of [coords]. *)
Lemma setup_particles `{!ParticleLaws R} masses coords sim :
  setup masses coords = Ok sim →
  length (particles sim) = length masses ∧
  ∀ i p, particles sim !! i = Some p → particle_of masses coords i = Ok p.
Proof.
  intros (s0 & m0 & ps & Hnew & _ & Hlen & Hps & Hadds)%setup_adds.
  apply adds_particles in Hadds.
  rewrite particles_set_G, (particles_new _ Hnew) in Hadds. simpl in Hadds.
  by rewrite Hadds.
Qed.

Lemma trajectory_masses `{!ParticleLaws R} s ts sims i si :
  trajectory s ts = Ok sims → sims !! i = Some si →
  p_m <$> particles si = p_m <$> particles s.
Proof.
  revert s sims i. induction ts as [|t ts IH]; intros s sims i; simpl.
  - by intros [= <-].
  - destruct (advance s t) as [s1|] eqn:Hadv; simpl_result; [|done].
    destruct (trajectory s1 ts) as [sims1|] eqn:E; simpl_result; [|done].
    intros [= <-]. apply masses_integrate in Hadv.
    destruct i as [|i]; simpl.
    + by intros [= <-].
    + intros Hi. rewrite <- Hadv. by eapply IH.
Qed.

Lemma trajectory_count `{!ParticleLaws R} s ts sims i si :
  trajectory s ts = Ok sims → sims !! i = Some si →
  length (particles si) = length (particles s).
Proof.
  intros Htraj Hi.
  pose proof (trajectory_masses _ _ _ _ _ Htraj Hi) as H.
  apply (f_equal length) in H. by rewrite !length_fmap in H.
Qed.

Lemma trajectory_total `{!Total R} s ts : is_ok (trajectory s ts).
Proof.
  revert s. induction ts as [|t ts IH]; intros s; simpl; [by eexists|].
  unfold advance. destruct (integrate_total s (fsub t (sim_t s))) as [s1 ->].
  simpl_result. destruct (IH s1) as [sims ->]. by eexists.
Qed.

Lemma adds_clock `{!IntegratesTo R} (ps : list Particle) sim sim' :
  for_each ps add sim = Ok sim' → sim_t sim' = sim_t sim.
Proof.
  revert sim. induction ps as [|p ps IH]; intros sim; simpl.
  - by intros [= <-].
  - destruct (add sim p) as [sim1|] eqn:Hadd; simpl_result; [|done].
    intros Hrest. by rewrite (IH _ Hrest), (clock_add _ _ _ Hadd).
Qed.

(** The time loop starts from a simulation standing at time zero. *)
Lemma setup_clock `{!IntegratesTo R} masses coords sim :
  setup masses coords = Ok sim → sim_t sim = fzero.
Proof.
  intros (s0 & m0 & ps & Hnew & _ & _ & _ & Hadds)%setup_adds.
  by rewrite (adds_clock _ _ _ Hadds), clock_set_G, (clock_new _ Hnew).
Qed.
End Laws.

(** ** The recorded calls *)

Section LoggedFacts.
Context {Sc : Scalar} (R : Rebound Sc).
Implicit Types (masses : list F) (coords : ndarray2) (p : Particle).

Lemma logged_adds (ps : list Particle) (sl sl' : @Simulation Sc (Logged R)) :
  for_each ps (add (Rebound := Logged R)) sl = Ok sl' →
  sl'.2 = sl.2 ++ (CallAdd <$> ps) ∧
  for_each ps (add (Rebound := R)) sl.1 = Ok sl'.1.
Proof.
  revert sl. induction ps as [|p ps IH]; intros [s log]; simpl.
  - intros [= <-]. by rewrite app_nil_r.
  - destruct (add s p) as [s1|] eqn:Hadd; simpl_result; [|done].
    intros Hrest. apply IH in Hrest as [-> Hrest]. simpl in *.
    by rewrite <- app_assoc.
Qed.



(** Recording the calls changes nothing of what is computed. *)
Lemma logged_setup masses coords :
  fst <$> setup (R := Logged R) masses coords = setup (R := R) masses coords.
Proof.
  unfold setup. simpl.
  destruct (@new_simulation Sc R) as [s0|]; simpl_result; [|done].
  destruct (getitem1 masses 0) as [m0|]; simpl_result; [|done].
  destruct (particle_args coords 0 fone) as [p0|]; simpl_result; [|done].
  cbn [fst snd].
  destruct (add (set_G s0 (fsqr m0)) p0) as [s1|]; simpl_result; [|done].
  apply (for_each_proj fst (add_secondary (R := R) masses coords)
           (add_secondary (R := Logged R) masses coords)).
  intros [s log] i. rewrite !add_secondary_eq.
  destruct (getitem1 masses i); simpl_result; [|done].
  destruct (getitem1 masses 0); simpl_result; [|done].
  destruct (particle_args _ _ _); simpl_result; [|done].
  simpl. by destruct (add s a1).
Qed.
End LoggedFacts.

(** The particle made for index [i] has mass [1.] or the ratio to the
    primary, and the six values of row [i] as its state. *)
Lemma particle_of_ok {Sc : Scalar} masses coords i p mi m0 :
  particle_of masses coords i = Ok p →
  masses !! i = Some mi → masses !! 0 = Some m0 →
  p_m p = match i with 0 => fone | _ => fdiv mi m0 end ∧
  getitem2 coords i <$> seq 0 6 = Ok <$> state_of p.
Proof.
  intros Hp Hmi Hm0. destruct i as [|i]; simpl in Hp.
  - by apply particle_args_ok in Hp.
  - unfold getitem1 in Hp. rewrite Hmi, Hm0 in Hp. simpl_result_all.
    by apply particle_args_ok in Hp.
Qed.



Lemma logged_setup_ok {Sc : Scalar} (R : Rebound Sc) masses coords sim0 :
  setup (R := R) masses coords = Ok sim0 →
  ∃ log, setup (R := Logged R) masses coords = Ok (sim0, log).
Proof.
  rewrite <- logged_setup.
  destruct (setup (R := Logged R) masses coords) as [[s log]|]; simpl_result; [|done].
  intros [= <-]. by exists log.
Qed.


(** ** The toy integrators keep the contracts *)

Lemma toy_particle_laws {Sc : Scalar} (accepts : F → bool) :
  ParticleLaws (Toy accepts).
Proof.
  split.
  - intros s [= <-]. done.
  - done.
  - intros s p s' [= <-]. done.
  - intros s dt s'. simpl. unfold toy_integrate.
    destruct (accepts dt); [|done]. intros [= <-]. simpl.
    rewrite <- list_fmap_compose. by apply list_fmap_ext.
Qed.

Lemma toy_builds {Sc : Scalar} (accepts : F → bool) : Builds (Toy accepts).
Proof. split; intros; by eexists. Qed.

Lemma toy_total {Sc : Scalar} : Total (Toy (λ _ : F, true)).
Proof. split; [apply toy_builds|]. intros; by eexists. Qed.

Lemma toy_to_particle_laws {Sc : Scalar} : ParticleLaws (ToyTo (Sc := Sc)).
Proof.
  split.
  - intros s [= <-]. done.
  - done.
  - intros s p s' [= <-]. done.
  - intros s dt s' [= <-]. simpl.
    rewrite <- list_fmap_compose. by apply list_fmap_ext.
Qed.

Lemma toy_to_total {Sc : Scalar} : Total (ToyTo (Sc := Sc)).
Proof. split; [split|]; intros; by eexists. Qed.

Lemma toy_to_integrates_to {Sc : Scalar} : IntegratesTo (ToyTo (Sc := Sc)).
Proof.
  split.
  - by intros s [= <-].
  - done.
  - by intros s p s' [= <-].
  - by intros s tmax s' [= <-].
Qed.

(** A lone body at rest stays where it is in the toy integrator. *)
Lemma toyZ_rest_static (m x y z : Z) :
  lone_particle_static ToyZ
    (@Build_Particle ZScalar m x y z 0%Z 0%Z 0%Z).
Proof.
  intros s dt s' Hps [= <-]. simpl in *. rewrite Hps. simpl.
  unfold toy_move, toy_accel. simpl. do 2 f_equal; lia.
Qed.

(** ** The cells of the result *)

Section Cells.
Context {Sc : Scalar} {R : Rebound Sc}.

Lemma fits_intro d0 d1 d2 i (ps : list Particle) :
  i < d0 → length ps ≤ d1 → 6 ≤ d2 → fits d0 d1 d2 i ps = true.
Proof.
  intros Hi Hj Hk. unfold fits. destruct ps; [done|].
  apply andb_true_iff. split; [apply andb_true_iff; split|].
  - by apply Nat.ltb_lt.
  - by apply Nat.leb_le.
  - by apply Nat.leb_le.
Qed.

Lemma state_of_lookup (p : Particle) k :
  k < 6 → ∃ v, state_of p !! k = Some v.
Proof.
  intros Hk. do 6 (destruct k as [|k]; [by eexists|]). lia.
Qed.

(** A cell the loop wrote holds the state component it read. *)
Lemma written_cell junk (sims : list Simulation) d0 d1 d2 i j k si p :
  sims !! i = Some si → particles si !! j = Some p →
  fits d0 d1 d2 i (particles si) = true → k < 6 →
  getitem3 (np_empty (snapshots junk sims) d0 d1 d2) i j k = state_of p !! k.
Proof.
  intros Hsi Hp Hfit Hk. unfold fits in Hfit.
  destruct (particles si) as [|q ps] eqn:Hps; [done|].
  apply andb_true_iff in Hfit as [[Hi Hj]%andb_true_iff Hd].
  apply Nat.ltb_lt in Hi. apply Nat.leb_le in Hj, Hd.
  apply lookup_lt_Some in Hp as Hlt.
  rewrite getitem3_np_empty by lia.
  unfold snapshots. rewrite Hsi, Hps, Hp.
  by destruct (state_of_lookup p k Hk) as [v ->].
Qed.

(** A cell of a row no particle stands for holds what the memory held. *)
Lemma unwritten_cell junk (sims : list Simulation) d0 d1 d2 i j k si :
  sims !! i = Some si → particles si !! j = None →
  i < d0 → j < d1 → k < d2 →
  getitem3 (np_empty (snapshots junk sims) d0 d1 d2) i j k = Some (junk i j k).
Proof.
  intros Hsi Hp Hi Hj Hk. rewrite getitem3_np_empty by done.
  unfold snapshots. by rewrite Hsi, Hp.
Qed.
End Cells.

(** ** Runs that cannot fail *)

Section Succeeds.
Context {Sc : Scalar} {R : Rebound Sc}.

(** With an integrator that raises nothing and keeps the particles it
    was given, [run] succeeds as soon as the array has room. *)
Lemma run_total `{!ParticleLaws R} `{!Total R} junk masses coords times :
  1 ≤ length masses → wf2 coords →
  length masses ≤ (shape2 coords).1 → 6 ≤ (shape2 coords).2 →
  ∃ sim0 sims,
    setup masses coords = Ok sim0 ∧ trajectory sim0 times = Ok sims ∧
    run junk masses coords times
    = Ok (default sim0 (last sims),
          np_empty (snapshots junk sims)
            (length times) (shape2 coords).1 (shape2 coords).2).
Proof.
  intros Hn Hwf Hrows Hcols.
  destruct (setup_succeeds masses coords Hn) as [sim0 Hsetup].
  { intros i Hi. apply particle_of_is_ok; done || lia. }
  destruct (trajectory_total sim0 times) as [sims Htraj].
  exists sim0, sims. do 2 (split; [done|]).
  apply run_succeeds; [done..|].
  intros i si Hsi. unfold fits.
  pose proof (trajectory_count _ _ _ _ _ Htraj Hsi) as Hcount.
  destruct (setup_particles _ _ _ Hsetup) as [Hlen _].
  apply lookup_lt_Some in Hsi as Hi.
  rewrite (trajectory_length _ _ _ Htraj) in Hi.
  destruct (particles si); [done|].
  apply andb_true_iff. split; [apply andb_true_iff; split|].
  - by apply Nat.ltb_lt.
  - apply Nat.leb_le. lia.
  - by apply Nat.leb_le.
Qed.
End Succeeds.

Lemma perform_results_run {Sc : Scalar} {R : Rebound Sc}
    junk masses coords times s_end res :
  run junk masses coords times = Ok (s_end, res) →
  perform_results junk masses coords times = Ok res.
Proof. unfold perform_results. by intros ->. Qed.

Lemma pair_coords_valid : valid_inputs (Sc := ZScalar) [2; 4]%Z pair_coords.
Proof.
  split; [simpl; lia|]. split; [|done]. split; [done|]. by repeat constructor.
Qed.

Lemma lone_resting_valid : valid_inputs (Sc := ZScalar) [5%Z] lone_resting.
Proof.
  split; [simpl; lia|]. split; [|done]. split; [done|]. by repeat constructor.
Qed.

Lemma lone_moving_valid : valid_inputs (Sc := ZScalar) [5%Z] lone_moving.
Proof.
  split; [simpl; lia|]. split; [|done]. split; [done|]. by repeat constructor.
Qed.

(** Inputs of the contract's shape run to the end on the toy integrator. *)
Lemma toyZ_runs junk masses coords times :
  valid_inputs (Sc := ZScalar) masses coords →
  ∃ s_end res, run (R := ToyZ) junk masses coords times = Ok (s_end, res).
Proof.
  intros (Hn & Hwf & Hshape).
  destruct (run_total (R := ToyZ) (ParticleLaws0 := toy_particle_laws _)
              (Total0 := toy_total) junk masses coords times)
    as (sim0 & sims & _ & _ & Hrun); rewrite ?Hshape; simpl; try done.
  by eexists _, _.
Qed.

(** ** Where a failure of the integrator leaves [setup] and the loop *)

Lemma enumerate_app {A : Type} (l1 l2 : list A) :
  enumerate (l1 ++ l2) = enumerate l1 ++ zip (seq (length l1) (length l2)) l2.
Proof.
  unfold enumerate. rewrite length_app, seq_app.
  by rewrite zip_with_app by (by rewrite length_seq).
Qed.

Section Failures.
Context {Sc : Scalar} {R : Rebound Sc}.
Implicit Types (masses : list F) (coords : ndarray2) (p : Particle).

Lemma add_secondary_particle masses coords sim i p :
  particle_of masses coords (S i) = Ok p →
  add_secondary masses coords sim (S i) = add sim p.
Proof.
  rewrite add_secondary_eq. simpl.
  destruct (getitem1 masses (S i)) as [mi|]; simpl_result; [|done].
  destruct (getitem1 masses 0) as [m0|]; simpl_result; [|done].
  by intros ->.
Qed.

Lemma secondaries_as_adds masses coords (ps : list Particle) a sim :
  (∀ i q, ps !! i = Some q → particle_of masses coords (S a + i) = Ok q) →
  for_each (seq (S a) (length ps)) (add_secondary masses coords) sim
  = for_each ps add sim.
Proof.
  revert a sim. induction ps as [|p ps IH]; intros a sim Hps; simpl; [done|].
  rewrite (add_secondary_particle _ _ _ _ p)
    by (specialize (Hps 0 p eq_refl); by rewrite Nat.add_0_r in Hps).
  destruct (add sim p) as [sim1|]; simpl_result; [|done].
  apply IH. intros i q Hq. specialize (Hps (S i) q Hq).
  by replace (S (S a) + i) with (S a + S i) by lia.
Qed.

(** An [add] that raises makes [setup] raise the same. *)
Lemma setup_add_raises masses coords s0 m0 (ps : list Particle) p sim e :
  new_simulation = Ok s0 → masses !! 0 = Some m0 →
  (∀ i q, (ps ++ [p]) !! i = Some q → particle_of masses coords i = Ok q) →
  length ps < length masses →
  for_each ps add (set_G s0 (fsqr m0)) = Ok sim →
  add sim p = Raise e →
  setup masses coords = Raise e.
Proof.
  intros Hnew Hm0 Hps Hlen Hadds Hadd. unfold setup.
  rewrite Hnew. simpl_result. unfold getitem1 at 1. rewrite Hm0. simpl_result.
  destruct ps as [|p0 ps].
  - specialize (Hps 0 p eq_refl). simpl in Hps, Hadds. rewrite Hps. simpl_result.
    injection Hadds as <-. by rewrite Hadd.
  - pose proof (Hps 0 p0 eq_refl) as Hp0. simpl in Hp0, Hadds. rewrite Hp0.
    simpl_result.
    destruct (add (set_G s0 (fsqr m0)) p0) as [sim1|]; simpl_result_all; [|done].
    simpl in Hlen. unfold range.
    replace (length masses - 1) with (length ps + S (length masses - 2 - length ps))
      by lia.
    rewrite seq_app, for_each_app, secondaries_as_adds, Hadds.
    + simpl_result. simpl.
      rewrite (add_secondary_particle _ _ _ _ p), Hadd; [done|].
      apply (Hps (S (length ps))). simpl.
      by rewrite lookup_app_r, Nat.sub_diag by done.
    + intros i q Hq. apply (Hps (S i)). simpl.
      rewrite lookup_app_l; [done|]. by eapply lookup_lt_Some.
Qed.

Lemma step_eq (s : Simulation) (res : ndarray3) i (t : F) :
  step (s, res) (i, t)
  = sim ← integrate s (fsub t (sim_t s));
    results ← for_each (enumerate (particles sim)) (write_particle i) res;
    Ok (sim, results).
Proof. done. Qed.

(** An [integrate] that raises at iteration [i] makes [run] raise the
    same. *)
Lemma run_integrate_raises junk masses coords times sim0 i t s res e :
  setup masses coords = Ok sim0 → times !! i = Some t →
  for_each (enumerate (take i times)) step
    (sim0, np_empty junk (length times) (shape2 coords).1 (shape2 coords).2)
  = Ok (s, res) →
  integrate s (fsub t (sim_t s)) = Raise e →
  run junk masses coords times = Raise e.
Proof.
  intros Hsetup Ht Hloop Hint. unfold run. rewrite Hsetup. simpl_result.
  assert (Hsplit : ∃ rest,
            enumerate times = enumerate (take i times) ++ [(i, t)] ++ rest).
  { eexists. rewrite <- (take_drop (S i) times) at 1.
    by rewrite enumerate_app, (enumerate_take _ _ _ Ht), <- app_assoc. }
  destruct Hsplit as [rest ->].
  rewrite !for_each_app, Hloop. simpl_result.
  cbn [app for_each]. by rewrite step_eq, Hint.
Qed.
End Failures.

(** ** Permuted inputs *)

Section Permute.
Context {A : Type}.
Implicit Types (σ : list nat) (l : list A).




End Permute.




Section Permuted.
Context {Sc : Scalar} {R : Rebound Sc}.
Implicit Types (masses : list F) (coords : ndarray2) (p : Particle) (σ : list nat).








End Permuted.









(** * The claims *)

(** C1. The requested times are taken in order, and iteration [i] starts
    from the simulation iteration [i - 1] left, but it does not leave the
    clock at [times[i]]: line 51 hands [integrate], which takes the time
    to integrate to, the difference [times[i] - sim.t]. With the clock of
    the library the loop starts at time zero and the particle states of
    row [i] are read at clock [times[i]] minus the clock of the read-out
    before. *)
Theorem clock_lands_on_difference {Sc : Scalar} {R : Rebound Sc} `{!IntegratesTo R}
    junk masses coords times s_end res :
  run junk masses coords times = Ok (s_end, res) →
  ∃ sim0 sims,
    setup masses coords = Ok sim0 ∧ sim_t sim0 = fzero ∧
    length sims = length times ∧
    ∀ i t, times !! i = Some t →
      ∃ before after,
        (sim0 :: sims) !! i = Some before ∧ sims !! i = Some after ∧
        integrate before (fsub t (sim_t before)) = Ok after ∧
        sim_t after = fsub t (sim_t before) ∧
        ∀ j p k, particles after !! j = Some p → k < 6 →
          getitem3 res i j k = state_of p !! k.
Proof.
  intros (sim0 & sims & Hsetup & Htraj & _ & Hfits & ->)%run_ok.
  exists sim0, sims. split; [done|]. split; [by eapply setup_clock|].
  split; [by eapply trajectory_length|].
  intros i t Ht.
  destruct (trajectory_lookup _ _ _ _ _ Htraj Ht) as (before & after & Hb & Ha & Hadv).
  exists before, after. repeat split; try done.
  - by apply clock_integrate in Hadv.
  - intros j p k Hp Hk. eapply written_cell; eauto.
Qed.

(** One body at the origin with unit speed along x, asked for at the
    times 1 and 3, in binary64: the second read-out happens at clock
    3 - 1 = 2 and row 1 of the result holds the body at x = 2, where it is
    at time 2. *)
Lemma clock_lands_on_difference_witness :
  (∃ s_end res,
     run (R := ToyToFloat) float_junk [1%float] float_lone [1; 3]%float
     = Ok (s_end, res) ∧
     ∃ sim0 sims,
       setup (R := ToyToFloat) [1%float] float_lone = Ok sim0 ∧
       sim_t sim0 = fzero ∧
       length sims = length [1; 3]%float ∧
       ∀ i t, [1; 3]%float !! i = Some t →
         ∃ before after,
           (sim0 :: sims) !! i = Some before ∧ sims !! i = Some after ∧
           integrate before (fsub t (sim_t before)) = Ok after ∧
           sim_t after = fsub t (sim_t before) ∧
           ∀ j p k, particles after !! j = Some p → k < 6 →
             getitem3 res i j k = state_of p !! k) ∧
  clocks (R := ToyToFloat) [1%float] float_lone [1; 3]%float = Ok [1; 2]%float ∧
  cell_of (perform_results (R := ToyToFloat) float_junk [1%float] float_lone
             [1; 3]%float) 1 0 0 = Some 2%float.
Proof.
  split; [|split; vm_compute; reflexivity].
  destruct (run_total (R := ToyToFloat) (ParticleLaws0 := toy_to_particle_laws)
              (Total0 := toy_to_total) float_junk [1%float] float_lone [1; 3]%float)
    as (sim0 & sims & _ & _ & Hrun); [simpl; lia|by repeat constructor|done|simpl; lia|].
  eexists _, _. split; [exact Hrun|].
  exact (clock_lands_on_difference (R := ToyToFloat)
           (IntegratesTo0 := toy_to_integrates_to) _ _ _ _ _ _ Hrun).
Defined.

(** The same input over whole numbers: asked for at the times 1 and 3,
    the body is read at the clocks 1 and 2. *)
Remark second_readout_at_clock_two :
  clocks (R := ToyToZ) [5%Z] lone_moving [1; 3]%Z = Ok [1; 2]%Z ∧
  cell_of (perform_results (R := ToyToZ) junk99 [5%Z] lone_moving [1; 3]%Z) 1 0 0
  = Some 2%Z.
Proof. split; vm_compute; reflexivity. Qed.

(** C2, as the specification has it, fails: a lone body that moves is
    read out where the integrator has carried it. Here the body starts at
    the origin with unit speed along x and is found at x = 1 at time 1. *)
Lemma lone_moving_body_drifts :
  valid_inputs (Sc := ZScalar) [5%Z] lone_moving ∧
  getitem2 lone_moving 0 0 = Ok 0%Z ∧
  cell_of (perform_results (R := ToyZ) junk99 [5%Z] lone_moving [1%Z]) 0 0 0
  = Some 1%Z ∧
  ¬ lone_primary_unchanged ToyZ.
Proof.
  pose proof lone_moving_valid as Hvalid.
  assert (Hcell : cell_of (perform_results (R := ToyZ) junk99 [5%Z] lone_moving [1%Z])
                    0 0 0 = Some 1%Z) by (vm_compute; reflexivity).
  split; [done|]. split; [done|]. split; [done|].
  intros Hclaim.
  destruct (perform_results (R := ToyZ) junk99 [5%Z] lone_moving [1%Z])
    as [res|] eqn:Hres; [|done].
  destruct (Hclaim junk99 5%Z lone_moving [1%Z] res Hvalid Hres 0 0) as (v & Hv & Hv');
    [simpl; lia|lia|].
  simpl in Hcell. vm_compute in Hv. congruence.
Qed.

(** C2, amended. With one mass, whenever the integrator leaves the state
    of the lone particle as it is, every output state equals row 0 of
    [coords] at every requested time. *)
Theorem lone_primary_static {Sc : Scalar} {R : Rebound Sc} `{!ParticleLaws R}
    junk m0 coords times res :
  (∀ p, particle_of [m0] coords 0 = Ok p → lone_particle_static R p) →
  perform_results junk [m0] coords times = Ok res →
  ∀ t k, t < length times → k < 6 →
    ∃ v, getitem2 coords 0 k = Ok v ∧ getitem3 res t 0 k = Some v.
Proof.
  intros Hstatic Hres t k Ht Hk. unfold perform_results in Hres.
  destruct (run junk [m0] coords times) as [[s_end res']|] eqn:Hrun;
    simpl_result_all; [|done].
  injection Hres as ->.
  apply run_ok in Hrun as (sim0 & sims & Hsetup & Htraj & _ & Hfits & ->).
  destruct (setup_particles _ _ _ Hsetup) as [Hlen Hps].
  destruct (particles sim0) as [|p0 [|? ?]] eqn:Hp0; try done.
  specialize (Hps 0 p0 eq_refl). specialize (Hstatic p0 Hps).
  assert (Hall : ∀ i si, sims !! i = Some si → particles si = [p0]).
  { clear Hfits Ht. revert Htraj Hp0. generalize sim0. clear -Hstatic.
    revert sims. induction times as [|t0 ts IH]; intros sims s; simpl.
    - by intros [= <-].
    - destruct (advance s t0) as [s1|] eqn:Hadv; simpl_result; [|done].
      destruct (trajectory s1 ts) as [sims1|] eqn:Htraj; simpl_result; [|done].
      intros [= <-] Hs [|i] si; simpl.
      + intros [= <-]. by eapply Hstatic.
      + eapply IH; [done|]. by eapply Hstatic. }
  destruct (lookup_lt_is_Some_2 sims t) as [st Hst];
    [by rewrite (trajectory_length _ _ _ Htraj)|].
  pose proof (Hall _ _ Hst) as Hpst.
  destruct (state_of_lookup p0 k Hk) as [v Hv]. exists v. split.
  - simpl in Hps. apply particle_args_ok in Hps as [_ Hrow].
    apply (f_equal (.!! k)) in Hrow. rewrite !list_lookup_fmap, Hv in Hrow.
    rewrite lookup_seq_lt in Hrow by done. simpl in Hrow. by injection Hrow.
  - rewrite <- Hv. eapply written_cell; eauto. by rewrite Hpst.
Qed.

Lemma lone_primary_static_witness :
  ∃ res,
    perform_results (R := ToyZ) junk99 [5%Z] lone_resting [1; 3]%Z = Ok res ∧
    ∀ t k, t < 2 → k < 6 →
      ∃ v, getitem2 lone_resting 0 k = Ok v ∧ getitem3 res t 0 k = Some v.
Proof.
  destruct (toyZ_runs junk99 [5%Z] lone_resting [1; 3]%Z lone_resting_valid)
    as (s_end & res & Hrun).
  apply perform_results_run in Hrun.
  exists res. split; [exact Hrun|].
  apply (lone_primary_static (R := ToyZ) (ParticleLaws0 := toy_particle_laws _)
           junk99 5%Z lone_resting [1; 3]%Z res); [|exact Hrun].
  intros p [= <-]. apply toyZ_rest_static.
Defined.

(** C3. For inputs of the contract's shape the result has shape
    [(T, N, 6)], and [result[t, i, :]] holds x, y, z, vx, vy, vz, in this
    order, of particle [i] of the simulation advanced to [times[t]]. *)
Theorem result_shape_and_layout {Sc : Scalar} {R : Rebound Sc} `{!ParticleLaws R}
    junk masses coords times s_end res :
  valid_inputs masses coords →
  run junk masses coords times = Ok (s_end, res) →
  shape3 res = (length times, length masses, 6) ∧
  ∃ sim0 sims,
    setup masses coords = Ok sim0 ∧ trajectory sim0 times = Ok sims ∧
    ∀ t i, t < length times → i < length masses →
      ∃ st p,
        sims !! t = Some st ∧ particles st !! i = Some p ∧
        getitem3 res t i 0 = Some (p_x p) ∧
        getitem3 res t i 1 = Some (p_y p) ∧
        getitem3 res t i 2 = Some (p_z p) ∧
        getitem3 res t i 3 = Some (p_vx p) ∧
        getitem3 res t i 4 = Some (p_vy p) ∧
        getitem3 res t i 5 = Some (p_vz p).
Proof.
  intros (Hn & Hwf & Hshape) (sim0 & sims & Hsetup & Htraj & _ & Hfits & ->)%run_ok.
  split; [by rewrite Hshape|].
  exists sim0, sims. do 2 (split; [done|]). intros t i Ht Hi.
  destruct (lookup_lt_is_Some_2 sims t) as [st Hst];
    [by rewrite (trajectory_length _ _ _ Htraj)|].
  destruct (setup_particles _ _ _ Hsetup) as [Hlen _].
  destruct (lookup_lt_is_Some_2 (particles st) i) as [p Hp].
  { rewrite (trajectory_count _ _ _ _ _ Htraj Hst). lia. }
  exists st, p. do 2 (split; [done|]).
  repeat split;
    (etrans; [eapply written_cell; eauto; lia|done]).
Qed.

Lemma result_shape_and_layout_witness :
  ∃ s_end res,
    run (R := ToyZ) junk99 [2; 4]%Z pair_coords [1; 3]%Z = Ok (s_end, res) ∧
    shape3 res = (2, 2, 6) ∧
    ∃ sim0 sims,
      setup (R := ToyZ) [2; 4]%Z pair_coords = Ok sim0 ∧
      trajectory sim0 [1; 3]%Z = Ok sims ∧
      ∀ t i, t < 2 → i < 2 →
        ∃ st p,
          sims !! t = Some st ∧ particles st !! i = Some p ∧
          getitem3 res t i 0 = Some (p_x p) ∧
          getitem3 res t i 1 = Some (p_y p) ∧
          getitem3 res t i 2 = Some (p_z p) ∧
          getitem3 res t i 3 = Some (p_vx p) ∧
          getitem3 res t i 4 = Some (p_vy p) ∧
          getitem3 res t i 5 = Some (p_vz p).
Proof.
  destruct (toyZ_runs junk99 [2; 4]%Z pair_coords [1; 3]%Z pair_coords_valid)
    as (s_end & res & Hrun).
  exists s_end, res. split; [exact Hrun|].
  exact (result_shape_and_layout (R := ToyZ) (ParticleLaws0 := toy_particle_laws _)
           junk99 [2; 4]%Z pair_coords [1; 3]%Z s_end res pair_coords_valid Hrun).
Defined.

(** C4. With no requested time the call succeeds, for inputs of the
    contract's shape and a library that raises nothing while the
    simulation is populated, and returns the empty array of shape
    [(0, N, 6)]. *)
Theorem no_times_empty_result {Sc : Scalar} {R : Rebound Sc} `{!Builds R}
    junk masses coords :
  valid_inputs masses coords →
  perform_results junk masses coords []
  = Ok {| shape3 := (0, length masses, 6); cells3 := [] |}.
Proof.
  intros (Hn & Hwf & Hshape). unfold perform_results, run.
  destruct (setup_succeeds masses coords Hn) as [sim0 ->].
  { intros i Hi. apply particle_of_is_ok; rewrite ?Hshape; simpl; done || lia. }
  simpl. by rewrite Hshape.
Qed.

Lemma no_times_empty_result_witness :
  perform_results (R := ToyZ) junk99 [2; 4]%Z pair_coords []
  = Ok {| shape3 := (0, 2, 6); cells3 := [] |}.
Proof.
  exact (no_times_empty_result (R := ToyZ) (Builds0 := toy_builds _)
           junk99 [2; 4]%Z pair_coords pair_coords_valid).
Defined.

(** C5. The calls that populate the simulation, in order: the simulation
    is made, [G] is set to [masses[0]] squared, particle 0 is added with
    mass [1.] and row 0 of [coords], and every further particle [i] with
    mass [masses[i] / masses[0]] and row [i] of [coords]. *)
Theorem setup_calls {Sc : Scalar} (R : Rebound Sc) masses coords sl :
  setup (R := Logged R) masses coords = Ok sl →
  setup (R := R) masses coords = Ok sl.1 ∧
  ∃ m0,
    masses !! 0 = Some m0 ∧
    length sl.2 = 2 + length masses ∧
    sl.2 !! 0 = Some CallNew ∧
    sl.2 !! 1 = Some (CallSetG (fsqr m0)) ∧
    ∀ i mi, masses !! i = Some mi →
      ∃ p, sl.2 !! (2 + i) = Some (CallAdd p) ∧
           p_m p = match i with 0 => fone | _ => fdiv mi m0 end ∧
           getitem2 coords i <$> seq 0 6 = Ok <$> state_of p.
Proof.
  intros Hsetup. split.
  { rewrite <- logged_setup, Hsetup. done. }
  apply setup_adds in Hsetup as (s0 & m0 & ps & Hnew & Hm0 & Hlen & Hps & Hadds).
  apply logged_adds in Hadds as [Hlog _].
  change (@new_simulation Sc (Logged R))
    with ((λ s, (s, [@CallNew Sc])) <$> @new_simulation Sc R) in Hnew.
  destruct (@new_simulation Sc R); simpl in Hnew; [|done].
  injection Hnew as <-. simpl in Hlog.
  exists m0. rewrite Hlog. split; [done|]. split.
  { simpl. by rewrite length_fmap, Hlen. }
  do 2 (split; [done|]). intros i mi Hmi.
  destruct (lookup_lt_is_Some_2 ps i) as [p Hp].
  { rewrite Hlen. by eapply lookup_lt_Some. }
  exists p. split.
  - simpl. by rewrite list_lookup_fmap, Hp.
  - eapply particle_of_ok; eauto.
Qed.

Lemma setup_calls_witness :
  ∃ sl,
    setup (R := Logged ToyZ) [2; 4]%Z pair_coords = Ok sl ∧
    setup (R := ToyZ) [2; 4]%Z pair_coords = Ok sl.1 ∧
    ∃ m0,
      [2; 4]%Z !! 0 = Some m0 ∧
      length sl.2 = 2 + length [2; 4]%Z ∧
      sl.2 !! 0 = Some CallNew ∧
      sl.2 !! 1 = Some (CallSetG (fsqr m0)) ∧
      ∀ i mi, [2; 4]%Z !! i = Some mi →
        ∃ p, sl.2 !! (2 + i) = Some (CallAdd p) ∧
             p_m p = match i with 0 => fone | _ => fdiv mi m0 end ∧
             getitem2 pair_coords i <$> seq 0 6 = Ok <$> state_of p.
Proof.
  destruct (run_total (R := ToyZ) (ParticleLaws0 := toy_particle_laws _)
              (Total0 := toy_total) junk99 [2; 4]%Z pair_coords [])
    as (sim0 & _ & Hsetup & _); [simpl; lia|by split; repeat constructor|simpl; lia..|].
  destruct (logged_setup_ok ToyZ _ _ _ Hsetup) as [log Hlogged].
  exists (sim0, log). split; [exact Hlogged|].
  exact (setup_calls ToyZ [2; 4]%Z pair_coords (sim0, log) Hlogged).
Defined.




(** The two results of the witness, cell by cell: the rows of the second
    and the third body change places, in every plane. *)
Remark secondaries_exchanged :
  cells3 <$> perform_results (R := ToyZ) junk99 [1; 2; 3]%Z trio_coords [1; 2]%Z
  = Ok [[[2; 6; 0; 2; 6; 0]; [-3; 7; 0; -4; 7; 0]; [1; -4; 0; 1; -6; 0]];
        [[-9; -16; 0; -11; -22; 0]; [10; -20; 0; 13; -27; 0];
         [-5; 22; 0; -6; 26; 0]]]%Z ∧
  cells3 <$> perform_results (R := ToyZ) junk7 [1; 3; 2]%Z
               (permute_rows [0; 2; 1] trio_coords) [1; 2]%Z
  = Ok [[[2; 6; 0; 2; 6; 0]; [1; -4; 0; 1; -6; 0]; [-3; 7; 0; -4; 7; 0]];
        [[-9; -16; 0; -11; -22; 0]; [-5; 22; 0; -6; 26; 0];
         [10; -20; 0; 13; -27; 0]]]%Z.
Proof. split; vm_compute; reflexivity. Qed.

(** The same exchange in binary64, on masses and states the arithmetic
    rounds: the result of the one-step integrator is the permuted one,
    bit for bit. *)
Remark secondaries_exchanged_float :
  perform_results (R := ToyFloat) float_junk (permute [0; 2; 1] float_trio_masses)
    (permute_rows [0; 2; 1] float_trio) [1 / 10; 1 / 3]%float
  = permute_particles [0; 2; 1]
      <$> perform_results (R := ToyFloat) float_junk float_trio_masses float_trio
            [1 / 10; 1 / 3]%float.
Proof. vm_compute. reflexivity. Qed.

(** C7, as the specification has it, fails when [coords] has more rows
    than there are masses: the rows no particle stands for keep what the
    memory held, and two calls on the same inputs differ there. *)
Lemma junk_rows_differ :
  wf2 pair_coords ∧
  cell_of (perform_results (R := ToyZ) junk99 [5%Z] pair_coords [1%Z]) 0 1 0
  = Some 99%Z ∧
  cell_of (perform_results (R := ToyZ) junk7 [5%Z] pair_coords [1%Z]) 0 1 0
  = Some 7%Z ∧
  ¬ deterministic ToyZ.
Proof.
  assert (Hwf : wf2 pair_coords) by (split; [done|]; by repeat constructor).
  split; [done|]. split; [vm_compute; reflexivity|].
  split; [vm_compute; reflexivity|].
  intros Hclaim.
  specialize (Hclaim junk99 junk7 [5%Z] pair_coords [1%Z] Hwf).
  apply (f_equal (λ r : result (@ndarray3 ZScalar), cell_of r 0 1 0)) in Hclaim.
  vm_compute in Hclaim. discriminate.
Qed.

(** C7, amended. For inputs of the contract's shape, two calls on the
    same inputs give the same outcome, the same array or the same
    exception, whatever the memory of either call held before. *)
Theorem deterministic_on_valid_inputs {Sc : Scalar} {R : Rebound Sc}
    `{!ParticleLaws R} junk1 junk2 masses coords times :
  valid_inputs masses coords →
  perform_results junk1 masses coords times
  = perform_results junk2 masses coords times.
Proof.
  intros (Hn & Hwf & Hshape).
  pose proof (run_control junk1 junk2 masses coords times) as Hctl.
  unfold perform_results.
  destruct (run junk1 masses coords times) as [[s1 res1]|e1] eqn:Hrun1.
  - apply run_ok in Hrun1 as (sim0 & sims & Hsetup & Htraj & -> & Hfits & ->).
    rewrite (run_succeeds junk2 _ _ _ _ _ Hsetup Htraj Hfits). simpl_result.
    f_equal. simpl. apply np_empty_ext. intros i j k Hi Hj Hk.
    rewrite Hshape in Hj, Hk. simpl in Hj, Hk.
    destruct (lookup_lt_is_Some_2 sims i) as [si Hsi];
      [by rewrite (trajectory_length _ _ _ Htraj)|].
    destruct (setup_particles _ _ _ Hsetup) as [Hlen _].
    destruct (lookup_lt_is_Some_2 (particles si) j) as [p Hp].
    { rewrite (trajectory_count _ _ _ _ _ Htraj Hsi). lia. }
    destruct (state_of_lookup p k Hk) as [v Hv].
    unfold snapshots. by rewrite Hsi, Hp, Hv.
  - destruct (run junk2 masses coords times) as [[s2 res2]|e2]; simpl in *; congruence.
Qed.

Lemma deterministic_on_valid_inputs_witness :
  perform_results (R := ToyZ) junk99 [2; 4]%Z pair_coords [1; 3]%Z
  = perform_results (R := ToyZ) junk7 [2; 4]%Z pair_coords [1; 3]%Z.
Proof.
  exact (deterministic_on_valid_inputs (R := ToyZ)
           (ParticleLaws0 := toy_particle_laws _)
           junk99 junk7 [2; 4]%Z pair_coords [1; 3]%Z pair_coords_valid).
Defined.



(** C9, as the specification has it, fails: a zero primary mass raises
    nothing. In float arithmetic [1 / 0] is infinity, the particle is
    added with that mass, and the call returns an array (of NaN). *)
Lemma zero_primary_mass_returns :
  valid_inputs (Sc := Float64) [0; 1]%float float_pair ∧
  fdiv (Scalar := Float64) 1%float 0%float = infinity ∧
  perform_results (R := ToyFloat) float_junk [0; 1]%float float_pair [1%float]
  = Ok (@Build_ndarray3 Float64 (1, 2, 6)
          [[[nan; nan; nan; nan; nan; nan]; [nan; nan; nan; nan; nan; nan]]]) ∧
  ¬ zero_primary_fails ToyFloat.
Proof.
  assert (Hvalid : valid_inputs (Sc := Float64) [0; 1]%float float_pair).
  { split; [simpl; lia|]. split; [|done]. split; [done|]. by repeat constructor. }
  assert (Hres : perform_results (R := ToyFloat) float_junk [0; 1]%float
                   float_pair [1%float]
                 = Ok (@Build_ndarray3 Float64 (1, 2, 6)
                         [[[nan; nan; nan; nan; nan; nan];
                           [nan; nan; nan; nan; nan; nan]]]))
    by (vm_compute; reflexivity).
  split; [done|]. split; [reflexivity|]. split; [done|].
  intros Hclaim.
  destruct (Hclaim float_junk [0; 1]%float float_pair [1%float] Hvalid) as [e He];
    [simpl; lia|done|].
  rewrite Hres in He. discriminate.
Qed.

(** C9, amended. The mass ratio is computed and handed to [sim.add]
    whatever the primary mass is; and whatever raises while the simulation
    is made, populated or advanced is raised by the call, which then
    leaves [outputs[0][0]] as it was: there is no retry and no partial
    result. *)
Theorem failure_propagates {Sc : Scalar} {R : Rebound Sc} junk st e :
  (∀ sim i mi m0,
     in_masses st !! i = Some mi → in_masses st !! 0 = Some m0 →
     add_secondary (in_masses st) (in_coords st) sim i
     = p ← particle_args (in_coords st) i (fdiv mi m0); add sim p) ∧
  (new_simulation = Raise e →
   setup (in_masses st) (in_coords st) = Raise e) ∧
  (∀ s0 m0 (ps : list Particle) p sim,
     new_simulation = Ok s0 → in_masses st !! 0 = Some m0 →
     (∀ i q, (ps ++ [p]) !! i = Some q →
        particle_of (in_masses st) (in_coords st) i = Ok q) →
     length ps < length (in_masses st) →
     for_each ps add (set_G s0 (fsqr m0)) = Ok sim →
     add sim p = Raise e →
     setup (in_masses st) (in_coords st) = Raise e) ∧
  (setup (in_masses st) (in_coords st) = Raise e →
   perform junk st = (st, Raise e)) ∧
  (∀ sim0 i t s res,
     setup (in_masses st) (in_coords st) = Ok sim0 →
     in_times st !! i = Some t →
     for_each (enumerate (take i (in_times st))) step
       (sim0, np_empty junk (length (in_times st))
                (shape2 (in_coords st)).1 (shape2 (in_coords st)).2)
     = Ok (s, res) →
     integrate s (fsub t (sim_t s)) = Raise e →
     perform junk st = (st, Raise e)).
Proof.
  split; [|split; [|split; [|split]]].
  - intros sim i mi m0 Hmi Hm0. rewrite add_secondary_eq.
    unfold getitem1. by rewrite Hmi, Hm0.
  - intros Hnew. unfold setup. by rewrite Hnew.
  - intros s0 m0 ps p sim. apply setup_add_raises.
  - intros Hsetup. unfold perform, perform_results, run. by rewrite Hsetup.
  - intros sim0 i t s res Hsetup Ht Hloop Hint.
    unfold perform, perform_results.
    by rewrite (run_integrate_raises _ _ _ _ _ _ _ _ _ _ Hsetup Ht Hloop Hint).
Qed.

Lemma failure_propagates_witness :
  perform (R := ToyForward) junk99 backward_storage
  = (backward_storage, Raise (SimulationError 1)).
Proof.
  apply (proj2 (proj2 (proj2 (proj2
           (failure_propagates (R := ToyForward) junk99 backward_storage
              (SimulationError 1)))))
           backward_sim0 1 3%Z backward_loop1.1 backward_loop1.2).
  - vm_compute. reflexivity.
  - reflexivity.
  - vm_compute. reflexivity.
  - vm_compute. reflexivity.
Defined.

(** C10. When [coords] has more rows than there are masses the call
    still returns, for an integrator that raises nothing and keeps the
    particles it was given: the array has a slice per row of [coords],
    the first [len(masses)] slices hold the particle states, and every
    further slice holds what the memory held when the array was
    allocated. *)
Theorem extra_rows_left_unwritten {Sc : Scalar} {R : Rebound Sc}
    `{!ParticleLaws R} `{!Total R} junk masses coords times rows :
  1 ≤ length masses → wf2 coords → shape2 coords = (rows, 6) →
  length masses < rows →
  ∃ sim0 sims res,
    setup masses coords = Ok sim0 ∧ trajectory sim0 times = Ok sims ∧
    perform_results junk masses coords times = Ok res ∧
    shape3 res = (length times, rows, 6) ∧
    (∀ t j k, t < length times → j < length masses → k < 6 →
       ∃ st p, sims !! t = Some st ∧ particles st !! j = Some p ∧
               getitem3 res t j k = state_of p !! k) ∧
    (∀ t j k, t < length times → length masses ≤ j < rows → k < 6 →
       getitem3 res t j k = Some (junk t j k)).
Proof.
  intros Hn Hwf Hshape Hrows.
  destruct (run_total junk masses coords times Hn Hwf)
    as (sim0 & sims & Hsetup & Htraj & Hrun);
    [rewrite Hshape; simpl; first [by apply Nat.lt_le_incl|done]..|].
  rewrite Hshape in Hrun. simpl in Hrun.
  exists sim0, sims. eexists. do 2 (split; [done|]).
  split; [by eapply perform_results_run|].
  simpl. split; [done|].
  destruct (setup_particles _ _ _ Hsetup) as [Hlen _].
  pose proof (trajectory_length _ _ _ Htraj) as Hsims.
  split.
  - intros t j k Ht Hj Hk.
    destruct (lookup_lt_is_Some_2 sims t) as [st Hst]; [lia|].
    pose proof (trajectory_count _ _ _ _ _ Htraj Hst) as Hcount.
    destruct (lookup_lt_is_Some_2 (particles st) j) as [p Hp]; [lia|].
    exists st, p. do 2 (split; [done|]).
    eapply written_cell; eauto. apply fits_intro; lia.
  - intros t j k Ht Hj Hk.
    destruct (lookup_lt_is_Some_2 sims t) as [st Hst]; [lia|].
    pose proof (trajectory_count _ _ _ _ _ Htraj Hst) as Hcount.
    eapply unwritten_cell; eauto; try lia.
    apply lookup_ge_None_2. lia.
Qed.

Lemma extra_rows_left_unwritten_witness :
  ∃ sim0 sims res,
    setup (R := ToyZ) [5%Z] pair_coords = Ok sim0 ∧
    trajectory sim0 [1; 3]%Z = Ok sims ∧
    perform_results (R := ToyZ) junk99 [5%Z] pair_coords [1; 3]%Z = Ok res ∧
    shape3 res = (length [1; 3]%Z, 2, 6) ∧
    (∀ t j k, t < length [1; 3]%Z → j < length [5%Z] → k < 6 →
       ∃ st p, sims !! t = Some st ∧ particles st !! j = Some p ∧
               getitem3 res t j k = state_of p !! k) ∧
    (∀ t j k, t < length [1; 3]%Z → length [5%Z] ≤ j < 2 → k < 6 →
       getitem3 res t j k = Some (junk99 t j k)).
Proof.
  apply (extra_rows_left_unwritten (R := ToyZ)
           (ParticleLaws0 := toy_particle_laws _) (Total0 := toy_total)
           junk99 [5%Z] pair_coords [1; 3]%Z 2).
  - simpl. lia.
  - split; [done|]. by repeat constructor.
  - reflexivity.
  - simpl. lia.
Defined.

(** * Further properties of [perform] and [make_node] *)

(** ** What makes [setup] raise *)

Section Raises.
Context {Sc : Scalar} {R : Rebound Sc}.
Implicit Types (masses : list F) (coords : ndarray2) (p : Particle).

Lemma getitem2_raises coords i k e :
  getitem2 coords i k = Raise e → e = IndexError.
Proof.
  unfold getitem2. destruct (_ ← rows2 coords !! i; _); [done|]. by intros [= <-].
Qed.

Lemma getitem1_raises masses i e :
  getitem1 masses i = Raise e → e = IndexError ∧ length masses ≤ i.
Proof.
  unfold getitem1. destruct (masses !! i) eqn:E; [done|]. intros [= <-].
  split; [done|]. by apply lookup_ge_None.
Qed.

(** [sim.add]'s arguments raise only for a cell of row [i] that is not
    there. *)
Lemma particle_args_raises coords i mass e :
  particle_args coords i mass = Raise e →
  e = IndexError ∧ ∃ k, k < 6 ∧ getitem2 coords i k = Raise IndexError.
Proof.
  unfold particle_args.
  destruct (getitem2 coords i 0) eqn:H0; simpl_result;
    [|intros [= <-]; pose proof (getitem2_raises _ _ _ _ H0) as ->;
      split; [done|]; exists 0; split; [lia|done]].
  destruct (getitem2 coords i 1) eqn:H1; simpl_result;
    [|intros [= <-]; pose proof (getitem2_raises _ _ _ _ H1) as ->;
      split; [done|]; exists 1; split; [lia|done]].
  destruct (getitem2 coords i 2) eqn:H2; simpl_result;
    [|intros [= <-]; pose proof (getitem2_raises _ _ _ _ H2) as ->;
      split; [done|]; exists 2; split; [lia|done]].
  destruct (getitem2 coords i 3) eqn:H3; simpl_result;
    [|intros [= <-]; pose proof (getitem2_raises _ _ _ _ H3) as ->;
      split; [done|]; exists 3; split; [lia|done]].
  destruct (getitem2 coords i 4) eqn:H4; simpl_result;
    [|intros [= <-]; pose proof (getitem2_raises _ _ _ _ H4) as ->;
      split; [done|]; exists 4; split; [lia|done]].
  destruct (getitem2 coords i 5) eqn:H5; simpl_result;
    [|intros [= <-]; pose proof (getitem2_raises _ _ _ _ H5) as ->;
      split; [done|]; exists 5; split; [lia|done]].
  done.
Qed.

(** What makes the loop over the secondaries raise. *)
Lemma secondaries_raise masses coords n a sim e :
  1 ≤ a → a + n ≤ length masses →
  for_each (seq a n) (add_secondary masses coords) sim = Raise e →
  (e = IndexError ∧
   ∃ i k, i < length masses ∧ k < 6 ∧ getitem2 coords i k = Raise IndexError) ∨
  (∃ s p, add s p = Raise e).
Proof.
  revert a sim. induction n as [|n IH]; intros a sim Ha Hn; simpl; [done|].
  rewrite add_secondary_eq.
  destruct (getitem1 masses a) as [mi|e1] eqn:Hmi; simpl_result.
  2: { apply getitem1_raises in Hmi as [_ Hmi]. lia. }
  destruct (getitem1 masses 0) as [m0|e1] eqn:Hm0; simpl_result.
  2: { apply getitem1_raises in Hm0 as [_ Hm0]. lia. }
  destruct (particle_args coords a (fdiv mi m0)) as [p|e1] eqn:Hp; simpl_result.
  2: { intros [= <-]. apply particle_args_raises in Hp as [-> (k & Hk & Hcell)].
       left. split; [done|]. exists a, k. repeat split; [lia|done..]. }
  destruct (add sim p) as [sim1|e1] eqn:Hadd; simpl_result.
  2: { intros [= <-]. right. by exists sim, p. }
  apply IH; lia.
Qed.

(** What makes [setup] raise: an index out of range, for no mass at all or
    for a cell of [coords] that is not there, or the library. *)
Lemma setup_raise_cases masses coords e :
  setup masses coords = Raise e →
  (e = IndexError ∧
   (masses = [] ∨
    ∃ i k, i < length masses ∧ k < 6 ∧ getitem2 coords i k = Raise IndexError)) ∨
  new_simulation = Raise e ∨
  (∃ s p, add s p = Raise e).
Proof.
  unfold setup.
  destruct new_simulation as [s0|e0]; simpl_result;
    [|intros [= <-]; right; by left].
  destruct (getitem1 masses 0) as [m0|e0] eqn:Hm0; simpl_result.
  2: { intros [= <-]. apply getitem1_raises in Hm0 as [-> Hlen].
       left. split; [done|]. left. destruct masses; [done|simpl in Hlen; lia]. }
  assert (Hn : 1 ≤ length masses).
  { unfold getitem1 in Hm0. destruct (masses !! 0) eqn:E; [|done].
    apply lookup_lt_Some in E. lia. }
  destruct (particle_args coords 0 fone) as [p0|e0] eqn:Hp0; simpl_result.
  2: { intros [= <-]. apply particle_args_raises in Hp0 as [-> (k & Hk & Hcell)].
       left. split; [done|]. right. exists 0, k. repeat split; [lia|done..]. }
  destruct (add (set_G s0 (fsqr m0)) p0) as [sim1|e0] eqn:Hadd; simpl_result.
  2: { intros [= <-]. right. right. by eexists _, _. }
  intros Hrest. unfold range in Hrest.
  apply secondaries_raise in Hrest as [[-> Hcell]|Hlib]; [..|lia|lia].
  - left. split; [done|]. by right.
  - right. by right.
Qed.
End Raises.

(** X1. Which inputs [perform] rejects itself. With a library that raises
    nothing while the simulation is populated, the simulation is populated
    exactly when there is a mass and [coords] has the cells [i, 0..5] of
    every [i < len(masses)]; otherwise the call raises [IndexError],
    whatever the requested times, before anything is integrated. *)
Theorem setup_index_error {Sc : Scalar} {R : Rebound Sc} `{!Builds R}
    (masses : list F) (coords : ndarray2) :
  (is_ok (setup masses coords) ∧ 1 ≤ length masses ∧
   ∀ i k, i < length masses → k < 6 → is_ok (getitem2 coords i k)) ∨
  ((masses = [] ∨
    ∃ i k, i < length masses ∧ k < 6 ∧ getitem2 coords i k = Raise IndexError) ∧
   setup masses coords = Raise IndexError ∧
   ∀ junk times, perform_results junk masses coords times = Raise IndexError).
Proof.
  destruct (setup masses coords) as [sim|e] eqn:Hsetup.
  - left. split; [by eexists|].
    apply setup_adds in Hsetup as (s0 & m0 & ps & _ & Hm0 & Hlen & Hps & _).
    split; [apply lookup_lt_Some in Hm0; lia|].
    intros i k Hi Hk.
    destruct (lookup_lt_is_Some_2 ps i) as [p Hp]; [lia|].
    destruct (lookup_lt_is_Some_2 masses i Hi) as [mi Hmi].
    destruct (particle_of_ok _ _ _ _ _ _ (Hps _ _ Hp) Hmi Hm0) as [_ Hrow].
    apply (f_equal (.!! k)) in Hrow. rewrite !list_lookup_fmap in Hrow.
    rewrite lookup_seq_lt in Hrow by done.
    destruct (state_of_lookup p k Hk) as [v Hv]. rewrite Hv in Hrow.
    simpl in Hrow. injection Hrow as Hrow. by exists v.
  - right.
    assert (He : e = IndexError ∧
                 (masses = [] ∨
                  ∃ i k, i < length masses ∧ k < 6 ∧
                         getitem2 coords i k = Raise IndexError)).
    { destruct (setup_raise_cases _ _ _ Hsetup) as [He|[Hnew|(s & p & Hadd)]].
      - done.
      - destruct new_total as [s0 Hs0]. congruence.
      - destruct (add_total s p) as [s1 Hs1]. congruence. }
    destruct He as [-> Hcells]. do 2 (split; [done|]).
    intros junk times. unfold perform_results, run. by rewrite Hsetup.
Qed.

Lemma setup_index_error_witness :
  (is_ok (setup (R := ToyZ) [5%Z] no_rows) ∧ 1 ≤ length [5%Z] ∧
   ∀ i k, i < length [5%Z] → k < 6 → is_ok (getitem2 no_rows i k)) ∨
  (([5%Z] = [] ∨
    ∃ i k, i < length [5%Z] ∧ k < 6 ∧ getitem2 no_rows i k = Raise IndexError) ∧
   setup (R := ToyZ) [5%Z] no_rows = Raise IndexError ∧
   ∀ junk times,
     perform_results (R := ToyZ) junk [5%Z] no_rows times = Raise IndexError).
Proof.
  exact (setup_index_error (R := ToyZ) (Builds0 := toy_builds _) [5%Z] no_rows).
Defined.

(** ** What [perform] reads of its inputs *)

Lemma for_each_ext {A St : Type} (xs : list A) (body1 body2 : St → A → result St) st :
  (∀ st x, x ∈ xs → body1 st x = body2 st x) →
  for_each xs body1 st = for_each xs body2 st.
Proof.
  revert st. induction xs as [|x xs IH]; intros st Hbody; simpl; [done|].
  rewrite (Hbody st x) by apply list_elem_of_here.
  destruct (body2 st x) as [st'|]; simpl_result; [|done].
  apply IH. intros st0 y Hy. apply Hbody. by apply list_elem_of_further.
Qed.

Section Reads.
Context {Sc : Scalar} {R : Rebound Sc}.
Implicit Types (masses : list F) (coords : ndarray2).

Lemma particle_args_reads coords coords' i mass :
  (∀ k, k < 6 → getitem2 coords i k = getitem2 coords' i k) →
  particle_args coords i mass = particle_args coords' i mass.
Proof.
  intros Hcells. unfold particle_args.
  by rewrite !Hcells by lia.
Qed.

Lemma setup_reads masses masses' coords coords' :
  length masses = length masses' →
  fsqr <$> masses !! 0 = fsqr <$> masses' !! 0 →
  (∀ i mi m0 mi' m0',
     1 ≤ i → masses !! i = Some mi → masses !! 0 = Some m0 →
     masses' !! i = Some mi' → masses' !! 0 = Some m0' →
     fdiv mi m0 = fdiv mi' m0') →
  (∀ i k, i < length masses → k < 6 →
     getitem2 coords i k = getitem2 coords' i k) →
  setup masses coords = setup masses' coords'.
Proof.
  intros Hlen Hsqr Hratio Hcells. unfold setup. rewrite <- Hlen.
  destruct new_simulation as [s0|]; simpl_result; [|done].
  unfold getitem1 at 1 2.
  destruct (masses !! 0) as [m0|] eqn:Hm0, (masses' !! 0) as [m0'|] eqn:Hm0';
    simpl in Hsqr; try done; simpl_result.
  injection Hsqr as Hsqr. rewrite <- Hsqr.
  assert (Hn : 1 ≤ length masses) by (apply lookup_lt_Some in Hm0; lia).
  rewrite (particle_args_reads coords coords' 0 fone)
    by (intros k Hk; apply Hcells; lia).
  destruct (particle_args coords' 0 fone) as [p0|]; simpl_result; [|done].
  destruct (add (set_G s0 (fsqr m0)) p0) as [sim1|]; simpl_result; [|done].
  apply for_each_ext. intros sim i Hi. unfold range in Hi.
  apply elem_of_seq in Hi. rewrite !add_secondary_eq. unfold getitem1.
  rewrite Hm0, Hm0'.
  destruct (lookup_lt_is_Some_2 masses i) as [mi Hmi]; [lia|].
  destruct (lookup_lt_is_Some_2 masses' i) as [mi' Hmi']; [lia|].
  rewrite Hmi, Hmi'. simpl_result.
  rewrite (Hratio i mi m0 mi' m0') by (done || lia).
  by rewrite (particle_args_reads coords coords' i) by (intros k Hk; apply Hcells; lia).
Qed.
End Reads.

(** X3. What [perform] reads of its inputs: the number of masses, the
    square of the first, the ratio of every other mass to the first, the
    shape of [coords] and its cells [i, 0..5] for [i < len(masses)], and
    the times. Two calls that agree on these have the same outcome; rows
    of [coords] past the masses and columns past the sixth are not read. *)
Theorem perform_reads_only {Sc : Scalar} {R : Rebound Sc}
    junk (masses masses' : list F) (coords coords' : ndarray2) (times : list F) :
  length masses = length masses' →
  fsqr <$> masses !! 0 = fsqr <$> masses' !! 0 →
  (∀ i mi m0 mi' m0',
     1 ≤ i → masses !! i = Some mi → masses !! 0 = Some m0 →
     masses' !! i = Some mi' → masses' !! 0 = Some m0' →
     fdiv mi m0 = fdiv mi' m0') →
  shape2 coords = shape2 coords' →
  (∀ i k, i < length masses → k < 6 →
     getitem2 coords i k = getitem2 coords' i k) →
  perform_results junk masses coords times
  = perform_results junk masses' coords' times.
Proof.
  intros Hlen Hsqr Hratio Hshape Hcells. unfold perform_results, run.
  by rewrite Hshape, (setup_reads masses masses' coords coords').
Qed.

Lemma perform_reads_only_witness :
  perform_results (R := ToyZ) junk99 [5%Z] pair_coords [1; 3]%Z
  = perform_results (R := ToyZ) junk99 [(-5)%Z] pair_coords' [1; 3]%Z.
Proof.
  apply (perform_reads_only (R := ToyZ) junk99 [5%Z] [(-5)%Z]
           pair_coords pair_coords' [1; 3]%Z).
  - reflexivity.
  - reflexivity.
  - intros [|[|i]] mi m0 mi' m0' Hi; simpl; (lia || discriminate).
  - reflexivity.
  - intros i k Hi Hk. simpl in Hi.
    destruct i as [|i]; [|lia].
    do 6 (destruct k as [|k]; [reflexivity|]). lia.
Defined.

(** ** Cells outside the particle states, and runs on fewer times *)

Section MoreCells.
Context {Sc : Scalar} {R : Rebound Sc}.

Lemma getitem3_np_empty_full (f : nat → nat → nat → F) d0 d1 d2 i j k :
  getitem3 (np_empty f d0 d1 d2) i j k
  = if ((i <? d0) && (j <? d1) && (k <? d2))%nat then Some (f i j k) else None.
Proof.
  destruct (Nat.ltb_spec i d0) as [Hi|Hi]; simpl.
  - destruct (Nat.ltb_spec j d1) as [Hj|Hj]; simpl.
    + destruct (Nat.ltb_spec k d2) as [Hk|Hk]; simpl.
      * by apply getitem3_np_empty.
      * unfold getitem3, np_empty. simpl.
        rewrite list_lookup_fmap, (lookup_seq_lt 0 d0 i Hi). simpl.
        rewrite list_lookup_fmap, (lookup_seq_lt 0 d1 j Hj). simpl.
        by rewrite list_lookup_fmap, lookup_seq_ge.
    + unfold getitem3, np_empty. simpl.
      rewrite list_lookup_fmap, (lookup_seq_lt 0 d0 i Hi). simpl.
      by rewrite list_lookup_fmap, lookup_seq_ge.
  - unfold getitem3, np_empty. simpl.
    by rewrite list_lookup_fmap, lookup_seq_ge.
Qed.

Lemma trajectory_take (s : Simulation) ts sims n :
  trajectory s ts = Ok sims → trajectory s (take n ts) = Ok (take n sims).
Proof.
  revert s sims n. induction ts as [|t ts IH]; intros s sims n; simpl.
  - intros [= <-]. by destruct n.
  - destruct (advance s t) as [s1|] eqn:Hadv; simpl_result; [|done].
    destruct (trajectory s1 ts) as [sims1|] eqn:Htraj; simpl_result; [|done].
    intros [= <-]. destruct n as [|n]; [done|].
    cbn [take trajectory]. rewrite Hadv. simpl_result.
    by rewrite (IH _ _ n Htraj).
Qed.
End MoreCells.

(** X4. The result takes its last two axes from [coords] as it comes: with
    more than six columns, every cell of a column past the sixth holds
    what the memory held when the array was allocated. *)
Theorem extra_columns_left_unwritten {Sc : Scalar} {R : Rebound Sc}
    junk (masses : list F) (coords : ndarray2) (times : list F) s_end res :
  run junk masses coords times = Ok (s_end, res) →
  shape3 res = (length times, (shape2 coords).1, (shape2 coords).2) ∧
  ∀ t j k, t < length times → j < (shape2 coords).1 →
    6 ≤ k < (shape2 coords).2 →
    getitem3 res t j k = Some (junk t j k).
Proof.
  intros (sim0 & sims & _ & _ & _ & _ & ->)%run_ok. split; [done|].
  intros t j k Ht Hj Hk. rewrite getitem3_np_empty by lia.
  unfold snapshots. destruct (sims !! t) as [st|]; [|done].
  destruct (particles st !! j) as [p|]; [|done].
  assert (state_of p !! k = None) as ->; [|done].
  apply lookup_ge_None_2. simpl. lia.
Qed.

Lemma extra_columns_left_unwritten_witness :
  ∃ s_end res,
    run (R := ToyZ) junk99 [5%Z] wide_coords [1; 3]%Z = Ok (s_end, res) ∧
    shape3 res = (length [1; 3]%Z, (shape2 wide_coords).1, (shape2 wide_coords).2) ∧
    ∀ t j k, t < length [1; 3]%Z → j < (shape2 wide_coords).1 →
      6 ≤ k < (shape2 wide_coords).2 →
      getitem3 res t j k = Some (junk99 t j k).
Proof.
  destruct (run_total (R := ToyZ) (ParticleLaws0 := toy_particle_laws _)
              (Total0 := toy_total) junk99 [5%Z] wide_coords [1; 3]%Z)
    as (sim0 & sims & _ & _ & Hrun);
    [simpl; lia|by split; repeat constructor|simpl; lia..|].
  eexists _, _. split; [exact Hrun|].
  exact (extra_columns_left_unwritten (R := ToyZ) junk99 [5%Z] wide_coords
           [1; 3]%Z _ _ Hrun).
Defined.

(** X5. A row of the result depends on the requested times up to its own
    only: a call on the first [n] times returns, whenever the call on all
    of them does, and its rows are the first [n] rows of that call. *)
Theorem earlier_rows_ignore_later_times {Sc : Scalar} {R : Rebound Sc}
    junk (masses : list F) (coords : ndarray2) (times : list F) s_end res n :
  run junk masses coords times = Ok (s_end, res) →
  n ≤ length times →
  ∃ s_end' res',
    run junk masses coords (take n times) = Ok (s_end', res') ∧
    shape3 res' = (n, (shape2 coords).1, (shape2 coords).2) ∧
    ∀ t j k, t < n → getitem3 res' t j k = getitem3 res t j k.
Proof.
  intros (sim0 & sims & Hsetup & Htraj & _ & Hfits & ->)%run_ok Hn.
  pose proof (trajectory_length _ _ _ Htraj) as Hlen.
  pose proof (trajectory_take _ _ _ n Htraj) as Htake.
  eexists _, _. split.
  - apply (run_succeeds junk _ _ _ _ _ Hsetup Htake).
    intros i si Hi. rewrite length_take.
    apply lookup_take_Some in Hi as [Hi Hin].
    specialize (Hfits i si Hi). unfold fits in *.
    destruct (particles si); [done|].
    apply andb_true_iff in Hfits as [[_ Hj]%andb_true_iff Hk].
    rewrite Hj, Hk, !andb_true_r. apply Nat.ltb_lt. lia.
  - rewrite length_take. replace (n `min` length times) with n by lia.
    split; [done|]. intros t j k Ht.
    rewrite !getitem3_np_empty_full.
    replace (t <? n)%nat with true by (symmetry; apply Nat.ltb_lt; lia).
    replace (t <? length times)%nat with true by (symmetry; apply Nat.ltb_lt; lia).
    destruct ((true && (j <? (shape2 coords).1) && (k <? (shape2 coords).2))%nat);
      [|done].
    unfold snapshots. by rewrite lookup_take_lt by done.
Qed.

Lemma earlier_rows_ignore_later_times_witness :
  ∃ s_end res s_end' res',
    run (R := ToyZ) junk99 [2; 4]%Z pair_coords [1; 3; 2]%Z = Ok (s_end, res) ∧
    run (R := ToyZ) junk99 [2; 4]%Z pair_coords (take 2 [1; 3; 2]%Z)
    = Ok (s_end', res') ∧
    shape3 res' = (2, (shape2 pair_coords).1, (shape2 pair_coords).2) ∧
    ∀ t j k, t < 2 → getitem3 res' t j k = getitem3 res t j k.
Proof.
  destruct (toyZ_runs junk99 [2; 4]%Z pair_coords [1; 3; 2]%Z pair_coords_valid)
    as (s_end & res & Hrun).
  destruct (earlier_rows_ignore_later_times (R := ToyZ) junk99 [2; 4]%Z
              pair_coords [1; 3; 2]%Z s_end res 2 Hrun)
    as (s_end' & res' & Hrun' & Hrest); [simpl; lia|].
  exists s_end, res, s_end', res'. split; [exact Hrun|]. split; [exact Hrun'|].
  exact Hrest.
Defined.

(** ** The node [make_node] declares *)

Lemma pad_pattern_length n (l : list bool) :
  length l ≤ n → length (pad_pattern n l) = n.
Proof.
  intros Hl. unfold pad_pattern. rewrite length_app, length_replicate. lia.
Qed.

Lemma patterns_laws : TheanoLaws Patterns.
Proof.
  split.
  - done.
  - by intros v w [= <-].
  - by intros v w [= <-].
  - by intros a b c [= <-].
Qed.

(** X6. The node of the operator takes the three arguments as its inputs,
    in the order masses, coords, times, and declares one output, whose
    type is that of [shape_padright(times) + shape_padleft(coords)]: one
    axis more than the larger of the two, whatever [masses] is. For a
    vector of times and a matrix of coordinates these are three axes, the
    first of them declared broadcastable, the second broadcastable when
    the axis of [times] and the first of [coords] both are, the third as
    the second of [coords]. *)
Theorem make_node_output_type {T : Theano} `{!TheanoLaws T}
    (masses coords times : PyObject) node :
  make_node masses coords times = Ok node →
  ∃ m c t out,
    as_tensor_variable masses = Ok m ∧
    as_tensor_variable coords = Ok c ∧
    as_tensor_variable times = Ok t ∧
    node_inputs node = [m; c; t] ∧
    node_outputs node = [out] ∧
    length (broadcastable (type_of out))
    = S (length (broadcastable (type_of t))
           `max` length (broadcastable (type_of c))) ∧
    ∀ bT bN b6,
      broadcastable (type_of t) = [bT] →
      broadcastable (type_of c) = [bN; b6] →
      broadcastable (type_of out) = [true; bT && bN; b6].
Proof.
  unfold make_node.
  destruct (as_tensor_variable masses) as [m|]; simpl_result; [|done].
  destruct (as_tensor_variable coords) as [c|]; simpl_result; [|done].
  destruct (as_tensor_variable times) as [t|]; simpl_result; [|done].
  unfold list_getitem. simpl.
  destruct (shape_padright t) as [right|] eqn:Hright; simpl_result; [|done].
  destruct (shape_padleft c) as [left|] eqn:Hleft; simpl_result; [|done].
  destruct (tensor_add right left) as [total|] eqn:Hadd; simpl_result; [|done].
  intros [= <-]. exists m, c, t, (make_variable (type_of total)).
  do 5 (split; [done|]). rewrite type_of_make_variable.
  apply padright_pattern in Hright. apply padleft_pattern in Hleft.
  apply add_pattern in Hadd. rewrite Hadd, Hright, Hleft. split.
  - rewrite length_zip_with, !pad_pattern_length;
      rewrite ?length_app; simpl; lia.
  - intros bT bN b6 -> ->. simpl. by destruct b6.
Qed.

Lemma make_node_output_type_witness :
  ∃ m c t out,
    as_tensor_variable (Theano := Patterns) [false] = Ok m ∧
    as_tensor_variable (Theano := Patterns) [false; false] = Ok c ∧
    as_tensor_variable (Theano := Patterns) [false] = Ok t ∧
    node_inputs (Build_Apply Patterns [[false]; [false; false]; [false]]
                   [[true; false; false]]) = [m; c; t] ∧
    node_outputs (Build_Apply Patterns [[false]; [false; false]; [false]]
                    [[true; false; false]]) = [out] ∧
    length (broadcastable (Theano := Patterns) (type_of out))
    = S (length (broadcastable (Theano := Patterns) (type_of t))
           `max` length (broadcastable (Theano := Patterns) (type_of c))) ∧
    ∀ bT bN b6,
      broadcastable (Theano := Patterns) (type_of t) = [bT] →
      broadcastable (Theano := Patterns) (type_of c) = [bN; b6] →
      broadcastable (Theano := Patterns) (type_of out) = [true; bT && bN; b6].
Proof.
  apply (make_node_output_type (T := Patterns) (TheanoLaws0 := patterns_laws)
           [false] [false; false] [false]).
  reflexivity.
Defined.

(** ** The way in and the way out *)

Lemma still_particle_laws : ParticleLaws Still.
Proof.
  split.
  - intros s [= <-]. done.
  - done.
  - intros s p s' [= <-]. done.
  - intros s dt s' [= <-]. done.
Qed.

Lemma still_total : Total Still.
Proof. split; [split|]; intros; by eexists. Qed.

Lemma trajectory_still {Sc : Scalar} {R : Rebound Sc} (s : Simulation) ts sims i si :
  (∀ s dt s', integrate s dt = Ok s' → particles s' = particles s) →
  trajectory s ts = Ok sims → sims !! i = Some si →
  particles si = particles s.
Proof.
  intros Hstill. revert s sims i. induction ts as [|t ts IH]; intros s sims i; simpl.
  - by intros [= <-].
  - destruct (advance s t) as [s1|] eqn:Hadv; simpl_result; [|done].
    destruct (trajectory s1 ts) as [sims1|] eqn:Htraj; simpl_result; [|done].
    intros [= <-]. apply Hstill in Hadv. destruct i as [|i]; simpl.
    + by intros [= <-].
    + intros Hi. rewrite <- Hadv. by eapply IH.
Qed.

(** X7. What goes in comes out: with an integrator that keeps the
    particles as they were added, and inputs of the contract's shape, the
    result is one copy of [coords] per requested time, each value in the
    cell of its particle and its component. *)
Theorem still_result_copies_coords {Sc : Scalar} {R : Rebound Sc} `{!ParticleLaws R}
    junk (masses : list F) (coords : ndarray2) (times : list F) s_end res :
  (∀ s dt s', integrate s dt = Ok s' → particles s' = particles s) →
  valid_inputs masses coords →
  run junk masses coords times = Ok (s_end, res) →
  res = {| shape3 := (length times, length masses, 6);
           cells3 := replicate (length times) (rows2 coords) |}.
Proof.
  intros Hstill (Hn & [Hrows Hcols] & Hshape)
    (sim0 & sims & Hsetup & Htraj & _ & _ & ->)%run_ok.
  rewrite Hshape in *. simpl in *. unfold np_empty. f_equal.
  pose proof (trajectory_length _ _ _ Htraj) as Hlen.
  destruct (setup_particles _ _ _ Hsetup) as [Hcount Hps].
  apply list_eq. intros t. rewrite list_lookup_fmap.
  destruct (decide (t < length times)) as [Ht|Ht].
  2: { rewrite lookup_seq_ge by lia. simpl. symmetry.
       apply lookup_ge_None_2. rewrite length_replicate. lia. }
  rewrite lookup_seq_lt, lookup_replicate_2 by done. simpl. f_equal.
  destruct (lookup_lt_is_Some_2 sims t) as [st Hst]; [lia|].
  pose proof (trajectory_still _ _ _ _ _ Hstill Htraj Hst) as Hsame.
  apply list_eq. intros j. rewrite list_lookup_fmap.
  destruct (decide (j < length masses)) as [Hj|Hj].
  2: { rewrite lookup_seq_ge by lia. simpl. symmetry.
       apply lookup_ge_None_2. lia. }
  rewrite lookup_seq_lt by done. simpl.
  destruct (lookup_lt_is_Some_2 (rows2 coords) j) as [row Hrow]; [lia|].
  rewrite Hrow. f_equal.
  rewrite Forall_lookup in Hcols. specialize (Hcols j row Hrow).
  destruct (lookup_lt_is_Some_2 (particles sim0) j) as [p Hp]; [lia|].
  destruct (lookup_lt_is_Some_2 masses j Hj) as [mj Hmj].
  destruct (lookup_lt_is_Some_2 masses 0 Hn) as [m0 Hm0].
  destruct (particle_of_ok _ _ _ _ _ _ (Hps _ _ Hp) Hmj Hm0) as [_ Hcells].
  destruct row as [|r0 [|r1 [|r2 [|r3 [|r4 [|r5 [|r6 row]]]]]]]; simpl in Hcols; try lia.
  unfold getitem2 in Hcells. rewrite Hrow in Hcells.
  cbn [fmap list_fmap seq state_of mbind option_bind lookup list_lookup] in Hcells.
  injection Hcells as -> -> -> -> -> ->.
  cbn [fmap list_fmap seq]. unfold snapshots. rewrite Hst, Hsame, Hp. done.
Qed.

Lemma still_result_copies_coords_witness :
  ∃ s_end res,
    run (R := Still) junk99 [2; 4]%Z pair_coords [1; 3]%Z = Ok (s_end, res) ∧
    res = @Build_ndarray3 ZScalar (length [1; 3]%Z, length [2; 4]%Z, 6)
            (replicate (length [1; 3]%Z) (rows2 pair_coords)).
Proof.
  destruct (run_total (R := Still) (ParticleLaws0 := still_particle_laws)
              (Total0 := still_total) junk99 [2; 4]%Z pair_coords [1; 3]%Z)
    as (sim0 & sims & _ & _ & Hrun);
    [simpl; lia|by split; repeat constructor|simpl; lia..|].
  eexists _, _. split; [exact Hrun|].
  apply (still_result_copies_coords (R := Still)
           (ParticleLaws0 := still_particle_laws)
           junk99 [2; 4]%Z pair_coords [1; 3]%Z (default sim0 (last sims)));
    [|exact pair_coords_valid|exact Hrun].
  by intros s dt s' [= <-].
Defined.
